(** * Closest-volume resolution of csi-proxy (pkg/os/volume/api.go)

    A shallow embedding of the path walker [findClosestVolume], of the
    identifier normalizer [ensureVolumePrefix], of the shape matcher
    [VolumeRegexp], of the drive-letter resolver [getVolumeForDriveLetter]
    and of the unbounded sibling [getTarget], with the properties the
    specification states about them.

    Go strings are byte strings: [string] with 8-bit [ascii] characters.
    The operating system and PowerShell are an interface ([Host]) whose
    calls thread an abstract world, so that every behaviour of the
    collaborators, also a stateful one, is covered. *)

From Stdlib Require Import String Ascii List ZArith Lia Bool Arith.
From Stdlib Require Import DecimalString.
Import ListNotations.

Set Implicit Arguments.
Local Open Scope string_scope.

(** ** Go strings *)

Module GoString.

(** [len(s)]: the number of bytes. *)
Definition len (s : string) : nat := String.length s.

(** [strings.HasPrefix(s, prefix)]. *)
Definition HasPrefix (s prefix : string) : bool := String.prefix prefix s.

(** [s[lo:hi]]; out of range the Go runtime panics: [None]. *)
Definition slice (s : string) (lo hi : nat) : option string :=
  if ((lo <=? hi) && (hi <=? len s))%nat then Some (substring lo (hi - lo) s)
  else None.

(** All bytes of [s] satisfy [f]. *)
Fixpoint all (f : ascii -> bool) (s : string) : bool :=
  match s with
  | EmptyString => true
  | String c s' => f c && all f s'
  end.

(** Number of positions of [s] at which [sub] occurs. *)
Fixpoint occurrences (sub s : string) : nat :=
  (if String.prefix sub s then 1 else 0) +
  match s with
  | EmptyString => 0
  | String _ s' => occurrences sub s'
  end.

End GoString.
Import GoString.

(** ** The normalizer *)

(** The extended-path marker: four bytes, backslash backslash question-mark
    backslash (the Go literal escapes each backslash). *)
Definition volumePrefix : string := "\\?\".

(** [ensureVolumePrefix] (api.go, 352-359). *)
Definition ensureVolumePrefix (volume : string) : string :=
  let prefix := volumePrefix in
  if negb (HasPrefix volume prefix) then prefix ++ volume else volume.

(** The input without its leading marker, when it has one. *)
Definition withoutPrefix (volume : string) : string :=
  if HasPrefix volume volumePrefix then substring 4 (len volume - 4) volume
  else volume.

Definition isQuestionMark (c : ascii) : bool := Ascii.eqb c "?"%char.

(** No byte of [s] is a question mark. *)
Definition noQuestionMark (s : string) : bool :=
  all (fun c => negb (isQuestionMark c)) s.

(** ** Regular expressions, as far as [VolumeRegexp] needs them *)

Module Regexp.

Inductive regexp : Type :=
| Never                              (* matches nothing *)
| Empty                              (* the empty string *)
| Class (f : ascii -> bool)          (* one byte of a class *)
| Cat (r1 r2 : regexp)
| Alt (r1 r2 : regexp)
| Star (r : regexp).

(** A literal text: the concatenation of its bytes. *)
Fixpoint Lit (s : string) : regexp :=
  match s with
  | EmptyString => Empty
  | String c s' => Cat (Class (Ascii.eqb c)) (Lit s')
  end.

(** The language of an expression. *)
Inductive matches : regexp -> string -> Prop :=
| MEmpty : matches Empty ""
| MClass f c : f c = true -> matches (Class f) (String c "")
| MCat r1 r2 s1 s2 :
    matches r1 s1 -> matches r2 s2 -> matches (Cat r1 r2) (s1 ++ s2)
| MAltL r1 r2 s : matches r1 s -> matches (Alt r1 r2) s
| MAltR r1 r2 s : matches r2 s -> matches (Alt r1 r2) s
| MStar0 r : matches (Star r) ""
| MStarS r s1 s2 :
    matches r s1 -> matches (Star r) s2 -> matches (Star r) (s1 ++ s2).

Fixpoint nullable (r : regexp) : bool :=
  match r with
  | Never => false
  | Empty => true
  | Class _ => false
  | Cat r1 r2 => nullable r1 && nullable r2
  | Alt r1 r2 => nullable r1 || nullable r2
  | Star _ => true
  end.

(** Concatenation and alternative that drop dead branches, so that the
    expression stays small while the matcher runs. *)
Definition cat (r1 r2 : regexp) : regexp :=
  match r1 with
  | Never => Never
  | Empty => r2
  | _ => Cat r1 r2
  end.

Definition alt (r1 r2 : regexp) : regexp :=
  match r1, r2 with
  | Never, _ => r2
  | _, Never => r1
  | _, _ => Alt r1 r2
  end.

(** What is left of [r] after the byte [c]. *)
Fixpoint deriv (c : ascii) (r : regexp) : regexp :=
  match r with
  | Never => Never
  | Empty => Never
  | Class f => if f c then Empty else Never
  | Cat r1 r2 =>
      if nullable r1 then alt (cat (deriv c r1) r2) (deriv c r2)
      else cat (deriv c r1) r2
  | Alt r1 r2 => alt (deriv c r1) (deriv c r2)
  | Star r1 => cat (deriv c r1) (Star r1)
  end.

(** Some prefix of [s] is in the language of [r]. *)
Fixpoint matchPrefix (r : regexp) (s : string) : bool :=
  nullable r ||
  match s with
  | EmptyString => false
  | String c s' => matchPrefix (deriv c r) s'
  end.

(** The method [Match] of a compiled expression: the expression is not
    anchored, some substring of [s] is in its language. *)
Fixpoint Match (r : regexp) (s : string) : bool :=
  matchPrefix r s ||
  match s with
  | EmptyString => false
  | String _ s' => Match r s'
  end.

End Regexp.
Import Regexp.

(** The class [\w] of Go's regexp syntax: [0-9A-Za-z_]. *)
Definition isWord (c : ascii) : bool :=
  let n := nat_of_ascii c in
  (((48 <=? n) && (n <=? 57)) || ((65 <=? n) && (n <=? 90)) ||
   ((97 <=? n) && (n <=? 122)) || (n =? 95))%nat.

(** The class [[\w-]]. *)
Definition isWordOrHyphen (c : ascii) : bool :=
  isWord c || Ascii.eqb c "-"%char.

(** [VolumeRegexp] (api.go, 57): the pattern Volume\{[\w-]*\}, that is
    the text Volume{, any number of bytes of [[\w-]], the byte }. *)
Definition VolumeRegexp : regexp :=
  Cat (Lit "Volume{") (Cat (Star (Class isWordOrHyphen)) (Lit "}")).

(** Follows the specification's words (section 4.3): the text Volume{, one
    or more word or hyphen characters, then }, anywhere within the input. *)
Definition spec_VolumeShape (s : string) : Prop :=
  exists pre tok post,
    s = pre ++ "Volume{" ++ tok ++ "}" ++ post /\
    tok <> "" /\ all isWordOrHyphen tok = true.

(** What the pattern of the source says: as above with any number of
    word or hyphen characters, none included. *)
Definition VolumeShape (s : string) : Prop :=
  exists pre tok post,
    s = pre ++ "Volume{" ++ tok ++ "}" ++ post /\
    all isWordOrHyphen tok = true.

(** ** Errors, file modes and the host interface *)

(** A Go [error] value; [nil] is [None] of [option error].  [Errorf] is
    what [fmt.Errorf] makes in this package, [HostError] what the in-memory
    host below hands back for the operating system and [os/exec]. *)
Inductive error : Type :=
| Errorf (msg : string)
| HostError (msg : string).

(** The method [Error()]. *)
Definition Error (e : error) : string :=
  match e with
  | Errorf msg => msg
  | HostError msg => msg
  end.

(** The verb [%v] applied to an [error] that may be [nil]. *)
Definition fmt_v (err : option error) : string :=
  match err with
  | None => "<nil>"
  | Some e => Error e
  end.

(** [err != nil]. *)
Definition isError (err : option error) : bool :=
  match err with
  | Some _ => true
  | None => false
  end.

(** [os.FileInfo], as far as the walker reads it: the mode bits (uint32). *)
Record FileInfo : Type := { Mode : Z }.

(** [os.ModeSymlink]: the fifth mode bit from the top of 32. *)
Definition ModeSymlink : Z := Z.shiftl 1 27.
Definition ModeDir : Z := Z.shiftl 1 31.

(** What the package calls outside itself.  Every call may read and change
    the world.  [cmd_Run] is the method [Run] of a command with both
    buffers attached and yields stdout, stderr and the error; [cmd_Output]
    and [cmd_CombinedOutput] are the methods of these names.
    [filepath_Dir], [strings_TrimSpace] and [cmd_String] are the pure
    library functions [filepath.Dir], [strings.TrimSpace] and the method
    [String] of a command; they belong to Go's standard library and are
    left open here. *)
Class Host (World : Type) : Type := {
  os_Lstat : string -> World -> (FileInfo * option error) * World;
  cmd_Run : list string -> World -> (string * string * option error) * World;
  cmd_Output : list string -> World -> (string * option error) * World;
  cmd_CombinedOutput : list string -> World -> (string * option error) * World;
  cmd_String : list string -> string;
  filepath_Dir : string -> string;
  strings_TrimSpace : string -> string
}.

(** The command lines the package builds with [fmt.Sprintf]. *)
Definition powershell (command : string) : list string :=
  ["powershell"; "/c"; command].

Definition targetCommand (path : string) : string :=
  "(Get-Item -Path " ++ path ++ ").Target".

Definition uniqueIdCommand (letter : string) : string :=
  "(Get-Partition -DriveLetter " ++ letter ++ " | Get-Volume).UniqueId".

(** ** The machine: world, log of calls, panics *)

(** The log records every call of the host and, for the claims about its
    argument, every entry of [getVolumeForDriveLetter].  The [klog] lines of
    the source have no effect on results and are left out. *)

Inductive Event : Type :=
| EvLstat (name : string)                  (* os.Lstat *)
| EvRun (argv : list string)               (* exec: Run *)
| EvOutput (argv : list string)            (* exec: Output *)
| EvCombinedOutput (argv : list string)    (* exec: CombinedOutput *)
| EvDriveLetter (path : string).           (* entry of getVolumeForDriveLetter *)

Definition isLstat (e : Event) : bool :=
  match e with EvLstat _ => true | _ => false end.
Definition isRun (e : Event) : bool :=
  match e with EvRun _ => true | _ => false end.
Definition isExec (e : Event) : bool :=
  match e with EvRun _ | EvOutput _ | EvCombinedOutput _ => true | _ => false end.

Definition count (f : Event -> bool) (tr : list Event) : nat :=
  List.length (List.filter f tr).

(** The argument of every logged entry of [getVolumeForDriveLetter] is one
    byte long. *)
Definition driveLettersOk (tr : list Event) : bool :=
  forallb (fun e => match e with
                    | EvDriveLetter p => (len p =? 1)%nat
                    | _ => true
                    end) tr.

Inductive Outcome (A : Type) : Type :=
| Returns (a : A)
| Panics.
Arguments Returns {A} a.
Arguments Panics {A}.

Record Machine (World : Type) : Type :=
  { world : World; trace : list Event }.

(** A Go computation: from a machine to an outcome and the machine after
    it.  The newest event is the head of the log. *)
Definition Go (World A : Type) : Type :=
  Machine World -> Outcome A * Machine World.

Definition ret {World A : Type} (a : A) : Go World A :=
  fun m => (Returns a, m).

Definition bind {World A B : Type} (c : Go World A) (k : A -> Go World B)
  : Go World B :=
  fun m => match c m with
           | (Returns a, m') => k a m'
           | (Panics, m') => (Panics, m')
           end.

Definition panic {World A : Type} : Go World A := fun m => (Panics, m).

Definition emit {World : Type} (e : Event) : Go World unit :=
  fun m => (Returns tt, {| world := world m; trace := e :: trace m |}).

(** One call of the host, logged. *)
Definition call {World A : Type} (e : Event) (f : World -> A * World)
  : Go World A :=
  fun m => let (a, w) := f (world m) in
           (Returns a, {| world := w; trace := e :: trace m |}).

Declare Scope go_scope.
Delimit Scope go_scope with go.
Notation "x <- c ;; k" := (bind c (fun x => k))
  (at level 61, c at next level, right associativity) : go_scope.
Notation "' pat <- c ;; k" := (bind c (fun x => match x with pat => k end))
  (at level 61, pat pattern, c at next level, right associativity) : go_scope.
Notation "c ;;; k" := (bind c (fun _ => k))
  (at level 61, right associativity) : go_scope.

(** ** The package *)

Section Volume.

Context {World : Type} {host : Host World}.
Local Open Scope go_scope.

(** [os.Lstat]. *)
Definition Lstat (name : string) : Go World (FileInfo * option error) :=
  call (EvLstat name) (os_Lstat name).

(** [runExec] (api.go, 65-70). *)
Definition runExec (command : string) : Go World (string * option error) :=
  let cmd := powershell command in
  call (EvCombinedOutput cmd) (cmd_CombinedOutput cmd).

(** [dereferenceSymlink] (api.go, 362-377). *)
Definition dereferenceSymlink (path : string) : Go World (string * option error) :=
  let cmd := powershell (targetCommand path) in
  '(outbuf, errbuf, err) <- call (EvRun cmd) (cmd_Run cmd) ;;
  match err with
  | Some e => ret ("", Some e)
  | None =>
      if negb (len errbuf =? 0)%nat then
        ret ("", Some (Errorf ("Unexpected stderr output in command=" ++
                               cmd_String cmd ++ " stdeerr=" ++ errbuf)))
      else
        let output := strings_TrimSpace outbuf in
        ret (output, None)
  end.

(** [getVolumeForDriveLetter] (api.go, 380-394); the first line logs the
    entry with its argument. *)
Definition getVolumeForDriveLetter (path : string)
  : Go World (string * option error) :=
  emit (EvDriveLetter path) ;;;
  if negb (len path =? 1)%nat then
    ret ("", Some (Errorf ("The path=" ++ path ++
                           " is not a valid DriverLetter")))
  else
    let cmd := powershell (uniqueIdCommand path) in
    '(targetb, err) <- call (EvOutput cmd) (cmd_Output cmd) ;;
    match err with
    | Some e => ret ("", Some e)
    | None =>
        let output := strings_TrimSpace targetb in
        ret (output, None)
    end.

(** How one turn of the loop of [findClosestVolume] ends: the loop goes
    on with a new candidate, or the function returns. *)
Inductive LoopStep : Type :=
| Continue (candidatePath : string)
| Done (result : string * option error).

(** The body of the loop of [findClosestVolume] (api.go, 313-345). *)
Definition iteration (candidatePath : string) : Go World LoopStep :=
  '(fi, err) <- Lstat candidatePath ;;
  match err with
  | Some e => ret (Done ("", Some e))
  | None =>
      let isSymlink := negb (Z.land (Mode fi) ModeSymlink =? 0)%Z in
      if isSymlink then
        '(target, err) <- dereferenceSymlink candidatePath ;;
        match err with
        | Some e => ret (Done ("", Some e))
        | None =>
            if Match VolumeRegexp target then
              ret (Done (ensureVolumePrefix target, None))
            else
              ret (Continue target)
        end
      else
        let previousPath := candidatePath in
        let candidatePath := filepath_Dir candidatePath in
        if (previousPath =? candidatePath)%string then
          match slice candidatePath 0 1 with
          | None => panic
          | Some letter =>
              '(target, err) <- getVolumeForDriveLetter letter ;;
              match err with
              | Some e => ret (Done ("", Some e))
              | None => ret (Done (target, None))
              end
          end
        else
          ret (Continue candidatePath)
  end.

(** The loop with [n] turns left. *)
Fixpoint loop (n : nat) (path candidatePath : string)
  : Go World (string * option error) :=
  match n with
  | O => ret ("", Some (Errorf ("Failed to find the closest volume for path="
                                ++ path)))
  | S n' =>
      step <- iteration candidatePath ;;
      match step with
      | Done result => ret result
      | Continue candidatePath' => loop n' path candidatePath'
      end
  end.

(** [findClosestVolume] (api.go, 299-350): [i] runs from 0 to 255. *)
Definition findClosestVolume (path : string) : Go World (string * option error) :=
  loop 256 path path.

(** [GetClosestVolumeIDFromTargetPath] (api.go, 286-294). *)
Definition GetClosestVolumeIDFromTargetPath (targetPath : string)
  : Go World (string * option error) :=
  '(volumeString, err) <- findClosestVolume targetPath ;;
  match err with
  | Some e =>
      ret ("", Some (Errorf ("error getting the closest volume for the path="
                             ++ targetPath ++ ", err=" ++ Error e)))
  | None => ret (volumeString, None)
  end.

(** How one call of [getTarget] ends before it recurses: it returns, or it
    calls itself on the trimmed output. *)
Inductive Hop : Type :=
| Recurse (volumeString : string)
| Resolved (result : string * option error).

(** The body of [getTarget] up to the recursive call (api.go, 272-282). *)
Definition getTargetHop (mount : string) : Go World Hop :=
  let cmd := targetCommand mount in
  '(out, err) <- runExec cmd ;;
  if isError err || (len out =? 0)%nat then
    ret (Resolved
           ("", Some (Errorf ("error getting volume from mount. cmd: " ++
                              cmd ++ ", output: " ++ out ++ ", error: " ++
                              fmt_v err))))
  else
    let volumeString := strings_TrimSpace out in
    if negb (HasPrefix volumeString "Volume") then
      ret (Recurse volumeString)
    else
      ret (Resolved (ensureVolumePrefix volumeString, None)).

(** [getTarget] (api.go, 271-283).  The source recurses with no bound;
    [fuel] is the depth allowed here and [None] says it was used up. *)
Fixpoint getTarget (fuel : nat) (mount : string)
  : Go World (option (string * option error)) :=
  match fuel with
  | O => ret None
  | S fuel' =>
      hop <- getTargetHop mount ;;
      match hop with
      | Resolved result => ret (Some result)
      | Recurse volumeString => getTarget fuel' volumeString
      end
  end.

(** [GetVolumeIDFromTargetPath] (api.go, 261-269). *)
Definition GetVolumeIDFromTargetPath (fuel : nat) (mount : string)
  : Go World (option (string * option error)) :=
  r <- getTarget fuel mount ;;
  match r with
  | None => ret None
  | Some (volumeString, Some e) =>
      ret (Some ("", Some (Errorf ("error getting the volume for the mount "
                                   ++ mount ++ ", internal error " ++
                                   Error e))))
  | Some (volumeString, None) => ret (Some (volumeString, None))
  end.

(** *** The situations the specification speaks of *)

(** In every world [p] is a symbolic link and dereferencing it succeeds
    with target [t]. *)
Definition is_symlink_to (p t : string) : Prop :=
  (forall w, exists fi w',
      os_Lstat p w = ((fi, None), w') /\
      Z.land (Mode fi) ModeSymlink <> 0%Z) /\
  (forall w, exists out w',
      cmd_Run (powershell (targetCommand p)) w = ((out, "", None), w') /\
      strings_TrimSpace out = t).

(** A chain of symbolic links from [p] through [hops] to [target]; it has
    [S (length hops)] links. *)
Inductive symlink_chain : string -> list string -> string -> Prop :=
| chain_last p target :
    is_symlink_to p target -> symlink_chain p [] target
| chain_hop p q hops target :
    is_symlink_to p q -> symlink_chain q hops target ->
    symlink_chain p (q :: hops) target.

(** In every world [p] can be stat'd and is not a symbolic link. *)
Definition is_plain (p : string) : Prop :=
  forall w, exists fi w',
    os_Lstat p w = ((fi, None), w') /\ Z.land (Mode fi) ModeSymlink = 0%Z.

(** [root] is reached from [p] by [n] parent levels, [root] is its own
    parent, and no path on the way is a symbolic link. *)
Fixpoint climbs (n : nat) (p root : string) : Prop :=
  match n with
  | O => p = root /\ (p =? filepath_Dir p)%string = true /\ is_plain p
  | S n' =>
      (p =? filepath_Dir p)%string = false /\ is_plain p /\
      climbs n' (filepath_Dir p) root
  end.

(** The first [n] turns of the loop, started at [candidatePath] on [m],
    all go on to a next turn. *)
Fixpoint continues (n : nat) (candidatePath : string) (m : Machine World)
  : bool :=
  match n with
  | O => true
  | S n' =>
      match iteration candidatePath m with
      | (Returns (Continue c), m') => continues n' c m'
      | _ => false
      end
  end.

(** Dereferencing [mount] over and over, as [getTarget] does, meets after
    exactly [h] further hops a resolver error, an empty output or a target
    that starts with Volume. *)
Fixpoint halts_in (h : nat) (mount : string) (w : World) : bool :=
  let '((out, err), w') :=
    cmd_CombinedOutput (powershell (targetCommand mount)) w in
  let stops :=
    isError err || (len out =? 0)%nat ||
    HasPrefix (strings_TrimSpace out) "Volume" in
  match h with
  | O => stops
  | S h' => negb stops && halts_in h' (strings_TrimSpace out) w'
  end.

(** *** One turn of the loop as a relation *)

(** The machine after a call sequence: the world [w] the last call left
    and the new events, newest first, before the old log. *)
Definition after (w : World) (events : list Event) (m : Machine World)
  : Machine World :=
  {| world := w; trace := events ++ trace m |}.

(** Every way a turn started at [c] on [m] can go, read off the answers
    of the host. *)
Inductive turn (c : string) (m : Machine World)
  : Outcome LoopStep * Machine World -> Prop :=
| turn_lstat_fails fi e w1 :
    os_Lstat c (world m) = ((fi, Some e), w1) ->
    turn c m (Returns (Done ("", Some e)), after w1 [EvLstat c] m)
| turn_run_fails fi w1 out errbuf e w2 :
    os_Lstat c (world m) = ((fi, None), w1) ->
    Z.land (Mode fi) ModeSymlink <> 0%Z ->
    cmd_Run (powershell (targetCommand c)) w1 = ((out, errbuf, Some e), w2) ->
    turn c m (Returns (Done ("", Some e)),
              after w2 [EvRun (powershell (targetCommand c)); EvLstat c] m)
| turn_stderr fi w1 out errbuf w2 :
    os_Lstat c (world m) = ((fi, None), w1) ->
    Z.land (Mode fi) ModeSymlink <> 0%Z ->
    cmd_Run (powershell (targetCommand c)) w1 = ((out, errbuf, None), w2) ->
    errbuf <> "" ->
    turn c m (Returns
                (Done ("", Some (Errorf
                                   ("Unexpected stderr output in command=" ++
                                    cmd_String (powershell (targetCommand c))
                                    ++ " stdeerr=" ++ errbuf)))),
              after w2 [EvRun (powershell (targetCommand c)); EvLstat c] m)
| turn_volume fi w1 out w2 :
    os_Lstat c (world m) = ((fi, None), w1) ->
    Z.land (Mode fi) ModeSymlink <> 0%Z ->
    cmd_Run (powershell (targetCommand c)) w1 = ((out, "", None), w2) ->
    Match VolumeRegexp (strings_TrimSpace out) = true ->
    turn c m (Returns (Done (ensureVolumePrefix (strings_TrimSpace out), None)),
              after w2 [EvRun (powershell (targetCommand c)); EvLstat c] m)
| turn_follow fi w1 out w2 :
    os_Lstat c (world m) = ((fi, None), w1) ->
    Z.land (Mode fi) ModeSymlink <> 0%Z ->
    cmd_Run (powershell (targetCommand c)) w1 = ((out, "", None), w2) ->
    Match VolumeRegexp (strings_TrimSpace out) = false ->
    turn c m (Returns (Continue (strings_TrimSpace out)),
              after w2 [EvRun (powershell (targetCommand c)); EvLstat c] m)
| turn_up fi w1 :
    os_Lstat c (world m) = ((fi, None), w1) ->
    Z.land (Mode fi) ModeSymlink = 0%Z ->
    (c =? filepath_Dir c)%string = false ->
    turn c m (Returns (Continue (filepath_Dir c)), after w1 [EvLstat c] m)
| turn_panics fi w1 :
    os_Lstat c (world m) = ((fi, None), w1) ->
    Z.land (Mode fi) ModeSymlink = 0%Z ->
    (c =? filepath_Dir c)%string = true ->
    filepath_Dir c = "" ->
    turn c m (Panics, after w1 [EvLstat c] m)
| turn_drive_fails fi w1 letter out e w2 :
    os_Lstat c (world m) = ((fi, None), w1) ->
    Z.land (Mode fi) ModeSymlink = 0%Z ->
    (c =? filepath_Dir c)%string = true ->
    slice (filepath_Dir c) 0 1 = Some letter ->
    cmd_Output (powershell (uniqueIdCommand letter)) w1 = ((out, Some e), w2) ->
    turn c m (Returns (Done ("", Some e)),
              after w2 [EvOutput (powershell (uniqueIdCommand letter));
                        EvDriveLetter letter; EvLstat c] m)
| turn_drive fi w1 letter out w2 :
    os_Lstat c (world m) = ((fi, None), w1) ->
    Z.land (Mode fi) ModeSymlink = 0%Z ->
    (c =? filepath_Dir c)%string = true ->
    slice (filepath_Dir c) 0 1 = Some letter ->
    cmd_Output (powershell (uniqueIdCommand letter)) w1 = ((out, None), w2) ->
    turn c m (Returns (Done (strings_TrimSpace out, None)),
              after w2 [EvOutput (powershell (uniqueIdCommand letter));
                        EvDriveLetter letter; EvLstat c] m).

End Volume.

(** ** An in-memory host *)

(** A host without state, answering from two tables: the symbolic links
    with their targets and the drive letters with the unique ids of their
    volumes.  It instantiates the interface in the examples below. *)
Module Fake.

(** The ASCII white space [strings.TrimSpace] removes. *)
Definition isSpace (c : ascii) : bool :=
  let n := nat_of_ascii c in
  ((n =? 32) || ((9 <=? n) && (n <=? 13)))%nat.

Fixpoint trimLeft (s : string) : string :=
  match s with
  | EmptyString => EmptyString
  | String c s' => if isSpace c then trimLeft s' else s
  end.

Fixpoint trimRight (s : string) : string :=
  match s with
  | EmptyString => EmptyString
  | String c s' =>
      match trimRight s' with
      | EmptyString => if isSpace c then EmptyString else String c EmptyString
      | r => String c r
      end
  end.

Definition TrimSpace (s : string) : string := trimRight (trimLeft s).

Definition isSeparator (c : ascii) : bool := Ascii.eqb c "\"%char.

(** The text before the last separator, if there is a separator. *)
Fixpoint beforeLastSeparator (s : string) : option string :=
  match s with
  | EmptyString => None
  | String c s' =>
      match beforeLastSeparator s' with
      | Some d => Some (String c d)
      | None => if isSeparator c then Some EmptyString else None
      end
  end.

(** The parent directory of a clean drive-letter path (a letter, a colon,
    then elements each led by one backslash): on such paths, on the root
    of a drive and on the empty path it is what [filepath.Dir] gives. *)
Definition Dir (path : string) : string :=
  match beforeLastSeparator path with
  | None => "."
  | Some d => if (len d <=? 2)%nat then d ++ "\" else d
  end.

Fixpoint lookup (key : string) (table : list (string * string))
  : option string :=
  match table with
  | [] => None
  | (k, v) :: rest => if (k =? key)%string then Some v else lookup key rest
  end.

(** The table with the keys turned into the command that asks for them. *)
Definition commands (mk : string -> string) (table : list (string * string))
  : list (string * string) :=
  List.map (fun kv => (mk (fst kv), snd kv)) table.

Definition command (argv : list string) : string :=
  match argv with
  | [_; _; c] => c
  | _ => ""
  end.

Definition crlf : string :=
  String (ascii_of_nat 13) (String (ascii_of_nat 10) EmptyString).

Record FS : Type := {
  links : list (string * string);
  drives : list (string * string)
}.

Definition Lstat (fs : FS) (name : string) (w : unit)
  : (FileInfo * option error) * unit :=
  if (name =? "")%string then
    ({| Mode := 0 |}, Some (HostError "The system cannot find the path specified."), w)
  else
    match lookup name (links fs) with
    | Some _ => ({| Mode := Z.lor ModeSymlink 438 |}, None, w)
    | None => ({| Mode := Z.lor ModeDir 511 |}, None, w)
    end.

Definition Run (fs : FS) (argv : list string) (w : unit)
  : (string * string * option error) * unit :=
  match lookup (command argv) (commands targetCommand (links fs)) with
  | Some target => ((target ++ crlf, "", None), w)
  | None => (("", "", None), w)
  end.

Definition Output (fs : FS) (argv : list string) (w : unit)
  : (string * option error) * unit :=
  match lookup (command argv) (commands uniqueIdCommand (drives fs)) with
  | Some id => ((id ++ crlf, None), w)
  | None => (("", Some (HostError "exit status 1")), w)
  end.

Definition CombinedOutput (fs : FS) (argv : list string) (w : unit)
  : (string * option error) * unit :=
  match lookup (command argv) (commands targetCommand (links fs)) with
  | Some target => ((target ++ crlf, None), w)
  | None => (("", None), w)
  end.

Definition host (fs : FS) : Host unit := {|
  os_Lstat := Lstat fs;
  cmd_Run := Run fs;
  cmd_Output := Output fs;
  cmd_CombinedOutput := CombinedOutput fs;
  cmd_String := fun argv => String.concat " " argv;
  filepath_Dir := Dir;
  strings_TrimSpace := TrimSpace
|}.

(** The machine every example starts from. *)
Definition boot : Machine unit := {| world := tt; trace := [] |}.

(** A path [n] directories below the root of drive C. *)
Fixpoint deep (n : nat) : string :=
  match n with
  | O => "C:"
  | S n' => deep n' ++ "\d"
  end.

End Fake.

(** The file systems of the examples. *)

(** One link straight to a volume; drive C. *)
Definition fsMount : Fake.FS := {|
  Fake.links := [("C:\mnt\disk1", "Volume{11111111-2222-3333-4444-555555555555}")];
  Fake.drives := [("C", "\\?\Volume{aaaaaaaa-bbbb-cccc-dddd-eeeeeeeeeeee}\")]
|}.

(** Two links in a row, as in the third scenario of the specification. *)
Definition fsTwoHops : Fake.FS := {|
  Fake.links := [("C:\mnt\disk2", "D:\mount2");
                 ("D:\mount2", "Volume{99999999-0000-1111-2222-333333333333}")];
  Fake.drives := []
|}.

(** Two links in a row whose middle link lives in a directory with a
    volume-like name. *)
Definition fsShapedHop : Fake.FS := {|
  Fake.links := [("C:\mnt\a", "C:\Volume{x}\b"); ("C:\Volume{x}\b", "Volume{y}")];
  Fake.drives := []
|}.

(** A link whose target carries the marker twice. *)
Definition fsTwice : Fake.FS := {|
  Fake.links := [("C:\mnt\d", "\\?\\\?\Volume{a}")];
  Fake.drives := []
|}.

(** Two links pointing at each other. *)
Definition fsCycle : Fake.FS := {|
  Fake.links := [("C:\a", "C:\b"); ("C:\b", "C:\a")];
  Fake.drives := []
|}.

(** No links; the lookup for drive C answers without the marker. *)
Definition fsBare : Fake.FS := {|
  Fake.links := [];
  Fake.drives := [("C", "Volume{a}")]
|}.

(** A link to a plain directory on drive D, two levels below its root. *)
Definition fsDetour : Fake.FS := {|
  Fake.links := [("C:\mnt\link", "D:\data\dir")];
  Fake.drives := [("D", "\\?\Volume{bbbbbbbb-0000-1111-2222-333333333333}\")]
|}.

(** A link whose target already carries the marker. *)
Definition fsMarked : Fake.FS := {|
  Fake.links := [("C:\mnt\m", "\\?\Volume{cccc}\")];
  Fake.drives := []
|}.

(** A host whose every command succeeds but also writes a warning to
    stderr; no path is a link but C:\noisy. *)
Definition noisyHost : Host unit := {|
  os_Lstat := fun name w =>
    if (name =? "C:\noisy")%string then ({| Mode := Z.lor ModeSymlink 438 |}, None, w)
    else ({| Mode := Z.lor ModeDir 511 |}, None, w);
  cmd_Run := fun argv w => (("Volume{a}", "WARNING: profile not loaded", None), w);
  cmd_Output := fun argv w => (("Volume{a}", None), w);
  cmd_CombinedOutput := fun argv w => (("WARNING: profile not loadedVolume{a}", None), w);
  cmd_String := fun argv => String.concat " " argv;
  filepath_Dir := Fake.Dir;
  strings_TrimSpace := Fake.TrimSpace
|}.

(** ** Shapes of the log *)

Definition isLookup (e : Event) : bool :=
  match e with EvOutput _ => true | _ => false end.
Definition isCombinedOutput (e : Event) : bool :=
  match e with EvCombinedOutput _ => true | _ => false end.

(** At most one drive-letter lookup among [events] (newest first), and if
    there is one it is the newest event. *)
Definition lookupLast (events : list Event) : bool :=
  match events with
  | EvOutput _ :: rest => (count isLookup rest =? 0)%nat
  | _ => (count isLookup events =? 0)%nat
  end.

(** ** The operations on volumes *)

(** *** Formatting *)

(** The double quote the commands put around a volume id. *)
Definition quote : string := String "034"%char EmptyString.

(** The verb [%d], and [%v] on an integer. *)
Definition fmt_d (n : Z) : string := NilZero.string_of_int (Z.to_int n).

(** The verb [%v] on a byte slice: the bytes in decimal between brackets. *)
Definition fmt_v_bytes (b : string) : string :=
  "[" ++ String.concat " "
           (List.map (fun c => fmt_d (Z.of_nat (nat_of_ascii c)))
                     (list_ascii_of_string b)) ++ "]".

(** The conversion [uint32(n)] of a [uint64]. *)
Definition uint32 (n : Z) : Z := (n mod 2 ^ 32)%Z.

(** *** Library functions *)

(** Parsers of Go's standard library, left open: [strconv.ParseInt(s, 10,
    64)], [strconv.ParseUint(s, 10, 32)] and [json.Unmarshal] into a
    [map[string]int64], given as the list of its entries. *)
Class Library : Type := {
  strconv_ParseInt : string -> Z * option error;
  strconv_ParseUint : string -> Z * option error;
  json_Unmarshal : string -> list (string * Z) * option error
}.

(** [m[key]] on a [map[string]int64]: zero when the key is missing. *)
Fixpoint mapIndex (m : list (string * Z)) (key : string) : Z :=
  match m with
  | [] => 0%Z
  | (k, v) :: rest => if (k =? key)%string then v else mapIndex rest key
  end.

(** [strings.Split(s, sep)] for a separator that is not empty: [field] is
    the text read since the last separator, [skip] the number of bytes of
    a separator just found that are still to pass. *)
Fixpoint splitFrom (sep : string) (skip : nat) (field s : string)
  : list string :=
  match s with
  | EmptyString => [field]
  | String c s' =>
      match skip with
      | S k => splitFrom sep k field s'
      | O =>
          if String.prefix sep s then
            field :: splitFrom sep (len sep - 1) EmptyString s'
          else splitFrom sep 0 (field ++ String c EmptyString) s'
      end
  end.

Definition Split (s sep : string) : list string := splitFrom sep 0 "" s.

(** The separator of the lines PowerShell prints: carriage return, line
    feed. *)
Definition CRLF : string := String "013"%char (String "010"%char EmptyString).

(** [strings.Join]. *)
Definition Join (elems : list string) (sep : string) : string :=
  String.concat sep elems.

(** *** Replacing with a regular expression *)

Module RegexpReplace.

(** One or more. *)
Definition Plus (r : regexp) : regexp := Cat r (Star r).

(** The length of the longest prefix of [s] in the language of [r]. *)
Fixpoint longestPrefix (r : regexp) (s : string) : option nat :=
  match s with
  | EmptyString => if nullable r then Some 0 else None
  | String c s' =>
      match longestPrefix (deriv c r) s' with
      | Some n => Some (S n)
      | None => if nullable r then Some 0 else None
      end
  end.

(** The method [ReplaceAllString] with a replacement free of [$], for an
    expression that does not match the empty string and whose leftmost
    match is the longest one (as for a greedy repetition of a class): every
    match, found from left to right, gives way to [repl].  [skip] is the
    number of bytes of the match at hand that are still to pass. *)
Fixpoint replaceFrom (r : regexp) (repl : string) (skip : nat) (s : string)
  : string :=
  match s with
  | EmptyString => EmptyString
  | String c s' =>
      match skip with
      | S k => replaceFrom r repl k s'
      | O =>
          match longestPrefix r s with
          | Some (S n) => repl ++ replaceFrom r repl n s'
          | _ => String c (replaceFrom r repl 0 s')
          end
      end
  end.

Definition ReplaceAllString (r : regexp) (src repl : string) : string :=
  replaceFrom r repl 0 src.

(** The number of bytes at the front of [s] that satisfy [f]. *)
Fixpoint leading (f : ascii -> bool) (s : string) : nat :=
  match s with
  | EmptyString => 0
  | String c s' => if f c then S (leading f s') else 0
  end.

End RegexpReplace.
Import RegexpReplace.

Definition isDigit (c : ascii) : bool :=
  let n := nat_of_ascii c in ((48 <=? n) && (n <=? 57))%nat.

(** The expression of [GetDiskNumberFromVolumeID] (api.go, 245): the
    pattern [^0-9]+, one or more bytes that are no digit. *)
Definition nonDigits : regexp := Plus (Class (fun c => negb (isDigit c))).

(** The digits of [s], in their order. *)
Fixpoint digitsOf (s : string) : string :=
  match s with
  | EmptyString => EmptyString
  | String c s' => if isDigit c then String c (digitsOf s') else digitsOf s'
  end.

(** *** The command lines *)

Definition sizeCommand (volumeID : string) : string :=
  "(Get-Volume -UniqueId " ++ quote ++ volumeID ++ quote ++
  " | Get-partition).Size".

Definition sizeMaxCommand (volumeID : string) : string :=
  "Get-Volume -UniqueId " ++ quote ++ volumeID ++ quote ++
  " | Get-partition | Get-PartitionSupportedSize | Select SizeMax | ConvertTo-Json".

Definition resizeCommand (volumeID : string) (finalSize : Z) : string :=
  "Get-Volume -UniqueId " ++ quote ++ volumeID ++ quote ++
  " | Get-Partition | Resize-Partition -Size " ++ fmt_d finalSize.

Definition writeCacheCommand (volumeID : string) : string :=
  "Get-Volume -UniqueId " ++ quote ++ volumeID ++ quote ++
  " | Write-Volumecache".

Definition removeAccessPathCommand (volumeID path : string) : string :=
  "Get-Volume -UniqueId " ++ quote ++ volumeID ++ quote ++
  " | Get-Partition | Remove-PartitionAccessPath -AccessPath " ++ path.

Definition diskNumberCommand (volumeID : string) : string :=
  "(Get-Volume -UniqueId " ++ quote ++ volumeID ++ quote ++
  " | Get-Partition).DiskNumber".

Definition listVolumesCommand (diskNumber partitionNumber : Z) : string :=
  if (partitionNumber =? 0)%Z then
    "(Get-Disk -Number " ++ fmt_d diskNumber ++
    " | Get-Partition | Get-Volume).UniqueId"
  else
    "(Get-Disk -Number " ++ fmt_d diskNumber ++
    " | Get-Partition -PartitionNumber " ++ fmt_d partitionNumber ++
    " | Get-Volume).UniqueId".

(** *** The operations *)

Section Operations.

Context {World : Type} {host : Host World} {lib : Library}.
Local Open Scope go_scope.

(** [getVolumeSize] (api.go, 72-87). *)
Definition getVolumeSize (volumeID : string) : Go World (Z * option error) :=
  let cmd := sizeCommand volumeID in
  '(out, err) <- runExec cmd ;;
  if isError err || (len out =? 0)%nat then
    ret ((-1)%Z,
         Some (Errorf ("error getting size of the partition from mount. cmd "
                       ++ cmd ++ ", output: " ++ out ++ ", error: " ++
                       fmt_v err)))
  else
    let outString := strings_TrimSpace out in
    let '(volumeSize, err) := strconv_ParseInt outString in
    match err with
    | Some e =>
        ret ((-1)%Z,
             Some (Errorf ("error parsing size of volume " ++ volumeID ++
                           " received " ++ fmt_v_bytes out ++ " trimmed to "
                           ++ outString ++ " err " ++ Error e)))
    | None => ret (volumeSize, None)
    end.

(** [ListVolumesOnDisk] (api.go, 90-105); the numbers are [uint32]. *)
Definition ListVolumesOnDisk (diskNumber partitionNumber : Z)
  : Go World (list string * option error) :=
  let cmd := listVolumesCommand diskNumber partitionNumber in
  '(out, err) <- runExec cmd ;;
  match err with
  | Some e =>
      ret ([], Some (Errorf ("error list volumes on disk. cmd: " ++ cmd ++
                             ", output: " ++ out ++ ", error: " ++ Error e)))
  | None =>
      let volumeIds := Split (strings_TrimSpace out) CRLF in
      ret (volumeIds, None)
  end.

(** [writeCache] (api.go, 396-403). *)
Definition writeCache (volumeID : string) : Go World (option error) :=
  let cmd := writeCacheCommand volumeID in
  '(out, err) <- runExec cmd ;;
  match err with
  | Some e =>
      ret (Some (Errorf ("error writing volume cache. cmd: " ++ cmd ++
                         ", output: " ++ out ++ ", error: " ++ Error e)))
  | None => ret None
  end.

(** [WriteVolumeCache] (api.go, 119-121). *)
Definition WriteVolumeCache (volumeID : string) : Go World (option error) :=
  writeCache volumeID.

(** [UnmountVolume] (api.go, 148-158). *)
Definition UnmountVolume (volumeID path : string) : Go World (option error) :=
  err <- writeCache volumeID ;;
  match err with
  | Some e => ret (Some e)
  | None =>
      let cmd := removeAccessPathCommand volumeID path in
      '(out, err) <- runExec cmd ;;
      match err with
      | Some e =>
          ret (Some (Errorf ("error getting driver letter to mount volume. cmd: "
                             ++ cmd ++ ", output: " ++ out ++ ",error: " ++
                             Error e)))
      | None => ret None
      end
  end.

(** The first part of [ResizeVolume] (api.go, 168-188): the size to reach,
    or the error that ends the function. *)
Definition finalSizeFor (volumeID : string) (size : Z) : Go World (Z + error) :=
  if (size =? 0)%Z then
    let cmd := sizeMaxCommand volumeID in
    '(out, err) <- runExec cmd ;;
    if isError err || (len out =? 0)%nat then
      ret (inr (Errorf ("error getting sizemin,sizemax from mount. cmd: " ++
                        cmd ++ ", output: " ++ out ++ ", error: " ++
                        fmt_v err)))
    else
      let outString := out in
      let '(getVolumeSizing, err) := json_Unmarshal outString in
      match err with
      | Some e =>
          ret (inr (Errorf ("out " ++ fmt_v_bytes out ++ " outstring " ++
                            outString ++ " err " ++ Error e)))
      | None =>
          let sizeMax := mapIndex getVolumeSizing "SizeMax" in
          let finalSize := sizeMax in
          ret (inl finalSize)
      end
  else
    let finalSize := size in
    ret (inl finalSize).

(** [ResizeVolume] (api.go, 161-207); the sizes are [int64]. *)
Definition ResizeVolume (volumeID : string) (size : Z) : Go World (option error) :=
  final <- finalSizeFor volumeID size ;;
  match final with
  | inr e => ret (Some e)
  | inl finalSize =>
      '(currentSize, err) <- getVolumeSize volumeID ;;
      match err with
      | Some e =>
          ret (Some (Errorf ("error getting the current size of volume (" ++
                             volumeID ++ ") with error (" ++ Error e ++ ")")))
      | None =>
          if (currentSize >=? finalSize)%Z then ret None
          else
            let cmd := resizeCommand volumeID finalSize in
            '(out, err) <- runExec cmd ;;
            match err with
            | Some e =>
                ret (Some (Errorf ("error resizing volume. cmd: " ++ cmd ++
                                   ", output: " ++ out ++ " size:" ++
                                   fmt_d size ++ ", finalSize " ++
                                   fmt_d finalSize ++ ", error: " ++ Error e)))
            | None => ret None
            end
      end
  end.

(** [GetDiskNumberFromVolumeID] (api.go, 236-258).  Compiling the constant
    pattern cannot fail, so the source's check of that error is left out. *)
Definition GetDiskNumberFromVolumeID (volumeID : string)
  : Go World (Z * option error) :=
  let cmd := diskNumberCommand volumeID in
  '(out, err) <- runExec cmd ;;
  if isError err || (len out =? 0)%nat then
    ret (0%Z, Some (Errorf ("error getting disk number. cmd: " ++ cmd ++
                            ", output: " ++ out ++ ", error: " ++ fmt_v err)))
  else
    let reg := nonDigits in
    let diskNumberOutput := ReplaceAllString reg out "" in
    let '(diskNumber, err) := strconv_ParseUint diskNumberOutput in
    match err with
    | Some e =>
        ret (0%Z, Some (Errorf ("error parsing disk number. cmd: " ++ cmd ++
                                ", output: " ++ diskNumberOutput ++
                                ", error: " ++ Error e)))
    | None => ret (uint32 diskNumber, None)
    end.

End Operations.

(** *** A scripted host and simple parsers *)

Module Script.

(** Answers [CombinedOutput] from a table of commands and their outputs;
    the commands in [failing] exit with an error. *)
Definition host (table : list (string * string)) (failing : list string)
  : Host unit := {|
  os_Lstat := fun name w => ({| Mode := 0 |}, Some (HostError "not found"), w);
  cmd_Run := fun argv w => (("", "", None), w);
  cmd_Output := fun argv w => (("", None), w);
  cmd_CombinedOutput := fun argv w =>
    if List.existsb (String.eqb (Fake.command argv)) failing then
      (("", Some (HostError "exit status 1")), w)
    else
      match Fake.lookup (Fake.command argv) table with
      | Some out => ((out, None), w)
      | None => (("", None), w)
      end;
  cmd_String := fun argv => String.concat " " argv;
  filepath_Dir := Fake.Dir;
  strings_TrimSpace := Fake.TrimSpace
|}.

(** The value of a string of decimal digits. *)
Fixpoint decimal (acc : Z) (s : string) : option Z :=
  match s with
  | EmptyString => Some acc
  | String c s' =>
      if isDigit c then
        decimal (10 * acc + Z.of_nat (nat_of_ascii c - 48))%Z s'
      else None
  end.

Definition parse (max : Z) (s : string) : Z * option error :=
  match s, decimal 0 s with
  | String _ _, Some n =>
      if (n <=? max)%Z then (n, None)
      else (max, Some (HostError "value out of range"))
  | _, _ => (0%Z, Some (HostError "invalid syntax"))
  end.

(** Parsers for unsigned decimal numbers only; no JSON. *)
Definition lib : Library := {|
  strconv_ParseInt := parse (2 ^ 63 - 1);
  strconv_ParseUint := parse (2 ^ 32 - 1);
  json_Unmarshal := fun _ => ([], Some (HostError "unsupported"))
|}.

End Script.

(** The scripted hosts of the examples: a volume whose disk number comes
    with words around it, and a disk with two volumes. *)
Definition diskHost : Host unit :=
  Script.host [(diskNumberCommand "v1", "Disk 1 of 2" ++ CRLF)] [].

Definition listHost : Host unit :=
  Script.host [(listVolumesCommand 1 0, "a" ++ CRLF ++ "b" ++ CRLF)] [].

(** * Properties *)

(** ** Byte strings *)

Section StringFacts.

Lemma append_nil_r (s : string) : s ++ "" = s.
Proof. induction s as [|c s IH]; simpl; [reflexivity | now rewrite IH]. Qed.

Lemma append_assoc (a b c : string) : (a ++ b) ++ c = a ++ (b ++ c).
Proof. induction a as [|x a IH]; simpl; [reflexivity | now rewrite IH]. Qed.

Lemma length_append (a b : string) :
  String.length (a ++ b) = String.length a + String.length b.
Proof. induction a as [|x a IH]; simpl; [reflexivity | now rewrite IH]. Qed.

Lemma append_eq_nil (a b : string) : a ++ b = "" -> a = "" /\ b = "".
Proof. destruct a; simpl; [intros ->; split; reflexivity | discriminate]. Qed.

Lemma prefix_append (p s : string) : String.prefix p (p ++ s) = true.
Proof.
  induction p as [|c p IH]; simpl.
  - now destruct s.
  - destruct (Ascii.ascii_dec c c) as [_|N]; [exact IH | now elim N].
Qed.

Lemma prefix_split (p s : string) :
  String.prefix p s = true -> exists r, s = p ++ r.
Proof.
  revert s; induction p as [|c p IH]; intros s H.
  - exists s; reflexivity.
  - destruct s as [|d s]; simpl in H; [discriminate|].
    destruct (Ascii.ascii_dec c d) as [->|_]; [|discriminate].
    destruct (IH _ H) as [r ->]. exists r; reflexivity.
Qed.

Lemma all_append (f : ascii -> bool) (a b : string) :
  all f (a ++ b) = all f a && all f b.
Proof.
  induction a as [|c a IH]; simpl; [reflexivity|].
  now rewrite IH, andb_assoc.
Qed.

Lemma substring_whole (s : string) : substring 0 (String.length s) s = s.
Proof. induction s as [|c s IH]; simpl; [reflexivity | now rewrite IH]. Qed.

(** A one-byte slice at the front exists exactly for non-empty strings and
    is one byte long. *)
Lemma slice_first (s : string) :
  match slice s 0 1 with
  | Some l => len l = 1 /\ s <> "" /\ l = substring 0 1 s
  | None => s = ""
  end.
Proof.
  destruct s as [|c s]; cbn; [reflexivity|].
  repeat split; [now destruct s | discriminate].
Qed.

End StringFacts.

(** ** The normalizer *)

Section Normalizer.

Lemma ensureVolumePrefix_has_prefix (s : string) :
  HasPrefix (ensureVolumePrefix s) volumePrefix = true.
Proof.
  unfold ensureVolumePrefix; cbv zeta.
  destruct (HasPrefix s volumePrefix) eqn:E; cbn [negb]; [exact E|].
  apply prefix_append.
Qed.

Lemma ensureVolumePrefix_fixed (s : string) :
  HasPrefix s volumePrefix = true -> ensureVolumePrefix s = s.
Proof. unfold ensureVolumePrefix; now intros ->. Qed.

Lemma ensureVolumePrefix_adds (s : string) :
  HasPrefix s volumePrefix = false -> ensureVolumePrefix s = volumePrefix ++ s.
Proof. unfold ensureVolumePrefix; now intros ->. Qed.

Lemma ensureVolumePrefix_withoutPrefix (s : string) :
  ensureVolumePrefix s = volumePrefix ++ withoutPrefix s.
Proof.
  unfold ensureVolumePrefix, withoutPrefix; cbv zeta.
  destruct (HasPrefix s volumePrefix) eqn:E; cbn [negb]; [|reflexivity].
  destruct (prefix_split _ _ E) as [r ->].
  cbn [volumePrefix append len String.length Nat.sub substring].
  now rewrite Nat.sub_0_r, substring_whole.
Qed.

(** The marker holds a question mark, so it occurs nowhere in a string
    that holds none. *)
Lemma occurrences_noQuestionMark (r : string) :
  noQuestionMark r = true -> occurrences volumePrefix r = 0.
Proof.
  induction r as [|c r IH]; intros H; [reflexivity|].
  unfold noQuestionMark in H; simpl in H.
  apply andb_true_iff in H; destruct H as [Hc Hr].
  cbn [occurrences]. rewrite (IH Hr), Nat.add_0_r.
  destruct (String.prefix volumePrefix (String c r)) eqn:E; [|reflexivity].
  destruct (prefix_split _ _ E) as [t Ht].
  cbn in Ht. injection Ht as -> ->.
  cbn in Hr. discriminate.
Qed.

Lemma occurrences_once (r : string) :
  noQuestionMark r = true -> occurrences volumePrefix (volumePrefix ++ r) = 1.
Proof.
  intros H.
  change (volumePrefix ++ r) with (String "\" (String "\" (String "?" (String "\" r)))).
  cbn [occurrences].
  assert (E3 : String.prefix volumePrefix (String "\" r) = false).
  { destruct (String.prefix volumePrefix (String "\" r)) eqn:E; [|reflexivity].
    destruct (prefix_split _ _ E) as [t Ht].
    cbn in Ht. injection Ht as ->.
    cbn in H. discriminate. }
  rewrite E3, (occurrences_noQuestionMark _ H).
  replace (String.prefix volumePrefix
             (String "\" (String "\" (String "?" (String "\" r)))))
    with true by (symmetry; apply (prefix_append volumePrefix r)).
  reflexivity.
Qed.

(** C6, as amended: normalizing twice is normalizing once; a string that
    starts with the marker is left as it is; the result always starts with
    the marker; and the marker occurs exactly once in the result when the
    input, its leading marker apart, holds no question mark (as every
    Volume{token} with or without the marker does). *)
Theorem ensureVolumePrefix_idempotent (s : string) :
  ensureVolumePrefix (ensureVolumePrefix s) = ensureVolumePrefix s /\
  (HasPrefix s volumePrefix = true -> ensureVolumePrefix s = s) /\
  HasPrefix (ensureVolumePrefix s) volumePrefix = true /\
  (noQuestionMark (withoutPrefix s) = true ->
   occurrences volumePrefix (ensureVolumePrefix s) = 1).
Proof.
  repeat split.
  - apply ensureVolumePrefix_fixed, ensureVolumePrefix_has_prefix.
  - apply ensureVolumePrefix_fixed.
  - apply ensureVolumePrefix_has_prefix.
  - intros H. rewrite ensureVolumePrefix_withoutPrefix.
    now apply occurrences_once.
Qed.

Lemma ensureVolumePrefix_idempotent_witness :
  ensureVolumePrefix (ensureVolumePrefix "\\?\Volume{a-1}") =
    ensureVolumePrefix "\\?\Volume{a-1}" /\
  ensureVolumePrefix "\\?\Volume{a-1}" = "\\?\Volume{a-1}" /\
  occurrences volumePrefix (ensureVolumePrefix "\\?\Volume{a-1}") = 1 /\
  occurrences volumePrefix (ensureVolumePrefix "Volume{a-1}") = 1.
Proof.
  destruct (ensureVolumePrefix_idempotent "\\?\Volume{a-1}")
    as (H1 & H2 & _ & H4).
  destruct (ensureVolumePrefix_idempotent "Volume{a-1}") as (_ & _ & _ & H5).
  refine (conj _ (conj _ (conj _ _))).
  - exact H1.
  - apply H2; reflexivity.
  - apply H4; reflexivity.
  - apply H5; reflexivity.
Defined.

(** C6, as stated, fails: this input is volume-shaped for the matcher and
    starts with the marker, so it is returned as it is, with the marker in
    it twice. *)
Lemma ensureVolumePrefix_once_counterexample :
  Match VolumeRegexp "\\?\\\?\Volume{a}" = true /\
  ensureVolumePrefix "\\?\\\?\Volume{a}" = "\\?\\\?\Volume{a}" /\
  occurrences volumePrefix (ensureVolumePrefix "\\?\\\?\Volume{a}") = 2 /\
  HasPrefix (withoutPrefix (ensureVolumePrefix "\\?\\\?\Volume{a}"))
    volumePrefix = true.
Proof. repeat split. Qed.

End Normalizer.

(** ** The matcher *)

Section Matcher.

(** *** Inversion of the language *)

Lemma matches_Never (s : string) : ~ matches Never s.
Proof. intros H; inversion H. Qed.

Lemma matches_Empty (s : string) : matches Empty s <-> s = "".
Proof.
  split; intros H; [now inversion H | subst; constructor].
Qed.

Lemma matches_Class (f : ascii -> bool) (s : string) :
  matches (Class f) s <-> exists c, s = String c "" /\ f c = true.
Proof.
  split.
  - intros H; inversion H; subst; eauto.
  - intros (c & -> & Hc); now constructor.
Qed.

Lemma matches_Cat (r1 r2 : regexp) (s : string) :
  matches (Cat r1 r2) s <->
  exists s1 s2, s = s1 ++ s2 /\ matches r1 s1 /\ matches r2 s2.
Proof.
  split.
  - intros H; inversion H; subst; eauto.
  - intros (s1 & s2 & -> & H1 & H2); now constructor.
Qed.

Lemma matches_Alt (r1 r2 : regexp) (s : string) :
  matches (Alt r1 r2) s <-> matches r1 s \/ matches r2 s.
Proof.
  split.
  - intros H; inversion H; subst; auto.
  - intros [H|H]; [now apply MAltL | now apply MAltR].
Qed.

(** A non-empty word of a star starts with a non-empty word of its body. *)
Lemma matches_Star_cons (r : regexp) (c : ascii) (s : string) :
  matches (Star r) (String c s) <->
  exists s1 s2,
    s = s1 ++ s2 /\ matches r (String c s1) /\ matches (Star r) s2.
Proof.
  split.
  - intros H.
    remember (Star r) as r' eqn:Er; remember (String c s) as w eqn:Ew.
    revert s Ew.
    induction H as [| | | | | |r0 s1 s2 H1 _ H2 IH2]; try discriminate.
    injection Er as ->. intros s Ew.
    destruct s1 as [|d s1]; simpl in Ew.
    + now apply IH2.
    + injection Ew as -> <-. eauto.
  - intros (s1 & s2 & -> & H1 & H2).
    change (String c (s1 ++ s2)) with (String c s1 ++ s2).
    now constructor.
Qed.

(** *** The matcher decides the language *)

Lemma nullable_spec (r : regexp) : nullable r = true <-> matches r "".
Proof.
  induction r as [| |f|r1 IH1 r2 IH2|r1 IH1 r2 IH2|r IH]; simpl.
  - split; [discriminate | intros H; inversion H].
  - split; [constructor | reflexivity].
  - split; [discriminate | intros H; inversion H].
  - rewrite andb_true_iff, IH1, IH2, matches_Cat. split.
    + intros [H1 H2]. exists "", "". auto.
    + intros (s1 & s2 & E & H1 & H2).
      symmetry in E; apply append_eq_nil in E; destruct E; subst; auto.
  - now rewrite orb_true_iff, IH1, IH2, matches_Alt.
  - split; [constructor | reflexivity].
Qed.

Lemma matches_cat (r1 r2 : regexp) (s : string) :
  matches (cat r1 r2) s <-> matches (Cat r1 r2) s.
Proof.
  destruct r1; simpl; try reflexivity.
  - rewrite matches_Cat. split; [intros H; inversion H|].
    intros (s1 & s2 & _ & H & _); inversion H.
  - rewrite matches_Cat. split.
    + intros H. exists "", s. repeat split; [constructor | exact H].
    + intros (s1 & s2 & -> & H1 & H2).
      apply matches_Empty in H1; now subst.
Qed.

Lemma matches_alt (r1 r2 : regexp) (s : string) :
  matches (alt r1 r2) s <-> matches (Alt r1 r2) s.
Proof.
  rewrite matches_Alt.
  destruct r1, r2; simpl; rewrite ?matches_Alt;
    intuition (try match goal with H : matches Never _ |- _ => inversion H end).
Qed.

Lemma deriv_spec (r : regexp) (c : ascii) (s : string) :
  matches (deriv c r) s <-> matches r (String c s).
Proof.
  revert s.
  induction r as [| |f|r1 IH1 r2 IH2|r1 IH1 r2 IH2|r IH]; intros s; simpl.
  - split; intros H; inversion H.
  - split; intros H; inversion H.
  - rewrite matches_Class. destruct (f c) eqn:Ef.
    + rewrite matches_Empty. split.
      * intros ->; eauto.
      * intros (d & E & _); now injection E.
    + split; [intros H; inversion H|].
      intros (d & E & Hd); injection E as <- _; congruence.
  - assert (Hcat : matches (Cat (deriv c r1) r2) s <->
                   exists s1 s2, s = s1 ++ s2 /\
                                 matches r1 (String c s1) /\ matches r2 s2).
    { rewrite matches_Cat. split; intros (s1 & s2 & E & H1 & H2);
        exists s1, s2; repeat split; auto; now apply IH1. }
    destruct (nullable r1) eqn:N.
    + rewrite matches_alt, matches_Alt, matches_cat, Hcat, IH2, matches_Cat.
      split.
      * intros [(s1 & s2 & -> & H1 & H2)|H].
        -- exists (String c s1), s2; auto.
        -- exists "", (String c s); repeat split; auto.
           now apply nullable_spec.
      * intros (s1 & s2 & E & H1 & H2).
        destruct s1 as [|d s1]; simpl in E.
        -- right; now subst.
        -- injection E as <- ->. left; eauto.
    + rewrite matches_cat, Hcat, matches_Cat. split.
      * intros (s1 & s2 & -> & H1 & H2). exists (String c s1), s2; auto.
      * intros (s1 & s2 & E & H1 & H2).
        destruct s1 as [|d s1]; simpl in E.
        -- apply nullable_spec in H1; congruence.
        -- injection E as <- ->. eauto.
  - now rewrite matches_alt, !matches_Alt, IH1, IH2.
  - rewrite matches_cat, matches_Cat, matches_Star_cons.
    split; intros (s1 & s2 & E & H1 & H2);
      exists s1, s2; repeat split; auto; now apply IH.
Qed.

Lemma matchPrefix_spec (r : regexp) (s : string) :
  matchPrefix r s = true <->
  exists mid post, s = mid ++ post /\ matches r mid.
Proof.
  revert r; induction s as [|c s IH]; intros r; simpl.
  - rewrite orb_false_r, nullable_spec. split.
    + intros H; exists "", ""; auto.
    + intros (mid & post & E & H).
      symmetry in E; apply append_eq_nil in E; destruct E; now subst.
  - rewrite orb_true_iff, nullable_spec, IH. split.
    + intros [H|(mid & post & -> & H)].
      * exists "", (String c s); auto.
      * exists (String c mid), post. split; [reflexivity|].
        now apply deriv_spec.
    + intros (mid & post & E & H).
      destruct mid as [|d mid]; simpl in E; [now left|].
      injection E as <- ->. right. exists mid, post; split; [reflexivity|].
      now apply deriv_spec.
Qed.

Lemma Match_spec (r : regexp) (s : string) :
  Match r s = true <->
  exists pre mid post, s = pre ++ mid ++ post /\ matches r mid.
Proof.
  induction s as [|c s IH]; cbn [Match].
  - rewrite orb_false_r, matchPrefix_spec. split.
    + intros (mid & post & E & H). exists "", mid, post; auto.
    + intros (pre & mid & post & E & H).
      symmetry in E; apply append_eq_nil in E; destruct E as [-> E].
      exists mid, post; auto.
  - rewrite orb_true_iff, matchPrefix_spec, IH. split.
    + intros [(mid & post & E & H)|(pre & mid & post & -> & H)].
      * exists "", mid, post; auto.
      * exists (String c pre), mid, post; auto.
    + intros (pre & mid & post & E & H).
      destruct pre as [|d pre]; simpl in E.
      * left; eauto.
      * injection E as <- ->. right; eauto.
Qed.

(** *** The pattern of [VolumeRegexp] *)

Lemma matches_Lit (l s : string) : matches (Lit l) s <-> s = l.
Proof.
  revert s; induction l as [|c l IH]; intros s; simpl.
  - apply matches_Empty.
  - rewrite matches_Cat. split.
    + intros (s1 & s2 & -> & H1 & H2).
      apply matches_Class in H1; destruct H1 as (d & -> & Hd).
      apply Ascii.eqb_eq in Hd; subst d.
      apply IH in H2; now subst.
    + intros ->. exists (String c ""), l. repeat split.
      * constructor; apply Ascii.eqb_refl.
      * now apply IH.
Qed.

Lemma matches_Star_Class (f : ascii -> bool) (s : string) :
  matches (Star (Class f)) s <-> all f s = true.
Proof.
  induction s as [|c s IH]; simpl.
  - split; [reflexivity | constructor].
  - rewrite matches_Star_cons, andb_true_iff, <- IH. split.
    + intros (s1 & s2 & -> & H1 & H2).
      apply matches_Class in H1; destruct H1 as (d & E & Hd).
      injection E as <- ->. auto.
    + intros [Hc H]. exists "", s. repeat split; [now constructor | exact H].
Qed.

Lemma matches_VolumeRegexp (mid : string) :
  matches VolumeRegexp mid <->
  exists tok, mid = "Volume{" ++ tok ++ "}" /\ all isWordOrHyphen tok = true.
Proof.
  unfold VolumeRegexp. rewrite matches_Cat. split.
  - intros (s1 & s2 & -> & H1 & H2).
    apply matches_Lit in H1; subst s1.
    apply matches_Cat in H2; destruct H2 as (tok & s3 & -> & H2 & H3).
    apply matches_Lit in H3; subst s3.
    apply matches_Star_Class in H2. eauto.
  - intros (tok & -> & H). exists "Volume{", (tok ++ "}").
    repeat split; [now apply matches_Lit|].
    apply matches_Cat. exists tok, "}". repeat split.
    + now apply matches_Star_Class.
    + now apply matches_Lit.
Qed.

(** C4, as amended: the matcher accepts exactly the strings that hold,
    anywhere, the text Volume{, then any number (none included) of word
    or hyphen bytes, then }. *)
Theorem VolumeRegexp_Match_iff (s : string) :
  Match VolumeRegexp s = true <-> VolumeShape s.
Proof.
  rewrite Match_spec. unfold VolumeShape. split.
  - intros (pre & mid & post & -> & H).
    apply matches_VolumeRegexp in H; destruct H as (tok & -> & H).
    exists pre, tok, post. split; [|exact H].
    now rewrite !append_assoc.
  - intros (pre & tok & post & -> & H).
    exists pre, ("Volume{" ++ tok ++ "}"), post. split.
    + now rewrite !append_assoc.
    + apply matches_VolumeRegexp; eauto.
Qed.

(** C4, as stated, fails: the matcher accepts Volume{} although no word
    or hyphen character stands between the braces. *)
Lemma VolumeRegexp_empty_token_counterexample :
  Match VolumeRegexp "Volume{}" = true /\ ~ spec_VolumeShape "Volume{}".
Proof.
  split; [reflexivity|].
  intros (pre & tok & post & E & Hne & _).
  apply (f_equal String.length) in E.
  rewrite !length_append in E. simpl in E.
  destruct tok; [now apply Hne | simpl in E; lia].
Qed.

End Matcher.

(** ** The walker *)

Section Walker.

Context {World : Type} {host : Host World}.

(** *** Single calls *)

Lemma Lstat_run (name : string) (m : Machine World) :
  Lstat name m =
  (Returns (fst (os_Lstat name (world m))),
   after (snd (os_Lstat name (world m))) [EvLstat name] m).
Proof.
  unfold Lstat, call, after. now destruct (os_Lstat name (world m)).
Qed.

(** [getVolumeForDriveLetter] on one byte: the lookup is made and its
    trimmed output returned as it is. *)
Lemma getVolumeForDriveLetter_letter (letter : string) (m : Machine World) :
  len letter = 1 ->
  getVolumeForDriveLetter letter m =
  let '((out, err), w) :=
    cmd_Output (powershell (uniqueIdCommand letter)) (world m) in
  (Returns (match err with
            | Some e => ("", Some e)
            | None => (strings_TrimSpace out, None)
            end),
   after w [EvOutput (powershell (uniqueIdCommand letter));
            EvDriveLetter letter] m).
Proof.
  intros H. unfold getVolumeForDriveLetter, bind, emit, call, ret, after.
  rewrite H; cbn.
  destruct (cmd_Output _ _) as [[out [e|]] w]; reflexivity.
Qed.

(** *** One turn *)

Lemma iteration_turn (c : string) (m : Machine World) :
  turn c m (iteration c m).
Proof.
  unfold iteration, bind. rewrite Lstat_run.
  destruct (os_Lstat c (world m)) as [[fi [e|]] w1] eqn:EL; cbn [fst snd].
  { unfold ret. eapply turn_lstat_fails; eassumption. }
  destruct (Z.land (Mode fi) ModeSymlink =? 0)%Z eqn:EM; cbn [negb].
  - apply Z.eqb_eq in EM.
    destruct (c =? filepath_Dir c)%string eqn:ED.
    + pose proof (slice_first (filepath_Dir c)) as HS.
      destruct (slice (filepath_Dir c) 0 1) as [letter|] eqn:ES.
      * destruct HS as (HL & _ & _).
        unfold bind. rewrite (getVolumeForDriveLetter_letter _ _ HL).
        cbn [world after].
        destruct (cmd_Output _ w1) as [[out [e|]] w2] eqn:EO; unfold ret.
        -- eapply turn_drive_fails; eassumption.
        -- eapply turn_drive; eassumption.
      * unfold panic. eapply turn_panics; eassumption.
    + unfold ret. eapply turn_up; eassumption.
  - apply Z.eqb_neq in EM.
    unfold dereferenceSymlink, bind, call, ret. cbn [world after].
    destruct (cmd_Run _ w1) as [[[out errbuf] [e|]] w2] eqn:ER.
    + eapply turn_run_fails; eassumption.
    + destruct errbuf as [|b errbuf]; cbn.
      * destruct (Match VolumeRegexp (strings_TrimSpace out)) eqn:EV.
        -- eapply turn_volume; eassumption.
        -- eapply turn_follow; eassumption.
      * eapply turn_stderr; try eassumption. discriminate.
Qed.

(** *** What every turn keeps *)

Lemma count_app (f : Event -> bool) (a b : list Event) :
  count f (a ++ b) = count f a + count f b.
Proof. unfold count. now rewrite List.filter_app, List.length_app. Qed.

Lemma turn_Lstat_count c m o m' :
  turn c m (o, m') -> count isLstat (trace m') = S (count isLstat (trace m)).
Proof.
  intros H; inversion H; subst; unfold after; cbn [trace];
    rewrite count_app; reflexivity.
Qed.

Lemma turn_Run_count c m o m' :
  turn c m (o, m') -> count isRun (trace m') <= S (count isRun (trace m)).
Proof.
  intros H; inversion H; subst; unfold after; cbn [trace];
    rewrite count_app; cbn; lia.
Qed.

Lemma turn_error_empty c m s e m' :
  turn c m (Returns (Done (s, Some e)), m') -> s = "".
Proof. intros H; inversion H; reflexivity. Qed.

Lemma turn_value c m v m' :
  turn c m (Returns (Done (v, None)), m') ->
  (exists tr, trace m' = EvRun (powershell (targetCommand c)) :: tr) /\
  HasPrefix v volumePrefix = true
  \/
  exists letter out w tr,
    trace m' = EvOutput (powershell (uniqueIdCommand letter)) ::
               EvDriveLetter letter :: tr /\
    len letter = 1 /\
    cmd_Output (powershell (uniqueIdCommand letter)) w =
      ((out, None), world m') /\
    v = strings_TrimSpace out.
Proof.
  intros H; inversion H; subst.
  - left. split; [eexists; reflexivity|].
    apply ensureVolumePrefix_has_prefix.
  - right.
    match goal with
    | HS : slice _ 0 1 = Some ?l, HO : cmd_Output _ ?w = _ |- _ =>
        pose proof (slice_first (filepath_Dir c)) as HL; rewrite HS in HL;
        exists l, out, w; eexists; repeat split; [apply HL | exact HO]
    end.
Qed.

Lemma turn_no_panic c m m' :
  (forall p, filepath_Dir p <> "") -> ~ turn c m (Panics, m').
Proof. intros HD H; inversion H; subst. eapply HD; eassumption. Qed.

Lemma turn_letters c m o m' :
  driveLettersOk (trace m) = true -> turn c m (o, m') ->
  driveLettersOk (trace m') = true.
Proof.
  intros Hm H; inversion H; subst; unfold after, driveLettersOk; cbn;
    try exact Hm;
    match goal with
    | HS : slice _ 0 1 = Some ?l |- _ =>
        pose proof (slice_first (filepath_Dir c)) as HL; rewrite HS in HL;
        destruct HL as (HL & _); rewrite HL; exact Hm
    end.
Qed.

(** *** The loop *)

Lemma loop_S n path c m :
  loop (S n) path c m =
  match iteration c m with
  | (Returns (Continue c'), m') => loop n path c' m'
  | (Returns (Done r), m') => (Returns r, m')
  | (Panics, m') => (Panics, m')
  end.
Proof.
  cbn [loop]. unfold bind.
  destruct (iteration c m) as [[[c'|r]|] m']; reflexivity.
Qed.

(** In each case of a turn: the turn relation at hand. *)
Ltac turn_cases c m T :=
  rewrite loop_S; pose proof (iteration_turn c m) as T;
  destruct (iteration c m) as [[[?c|?r]|] ?m].

Lemma loop_counts n path c m :
  count isLstat (trace (snd (loop n path c m))) <=
    count isLstat (trace m) + n /\
  count isRun (trace (snd (loop n path c m))) <= count isRun (trace m) + n.
Proof.
  revert c m; induction n as [|n IH]; intros c m.
  - cbn; lia.
  - turn_cases c m T;
      pose proof (turn_Lstat_count T); pose proof (turn_Run_count T).
    + destruct (IH c0 m0). lia.
    + cbn [snd]. lia.
    + cbn [snd]. lia.
Qed.

Lemma loop_exhausted n path c m :
  continues n c m = true ->
  fst (loop n path c m) =
    Returns ("", Some (Errorf ("Failed to find the closest volume for path="
                               ++ path))) /\
  count isLstat (trace (snd (loop n path c m))) = count isLstat (trace m) + n.
Proof.
  revert c m; induction n as [|n IH]; intros c m H.
  - cbn; split; [reflexivity | lia].
  - cbn [continues] in H. turn_cases c m T; try discriminate.
    pose proof (turn_Lstat_count T).
    destruct (IH _ _ H) as [-> ->]. split; [reflexivity | lia].
Qed.

Lemma loop_error_empty n path c m s e m' :
  loop n path c m = (Returns (s, Some e), m') -> s = "".
Proof.
  revert c m; induction n as [|n IH]; intros c m.
  - cbn. unfold ret. now intros [= <- _ _].
  - turn_cases c m T; intros E.
    + eapply IH; eassumption.
    + injection E as -> ->. eapply turn_error_empty; eassumption.
    + discriminate.
Qed.

Lemma loop_value n path c m v m' :
  loop n path c m = (Returns (v, None), m') ->
  (exists argv tr, trace m' = EvRun argv :: tr) /\
  HasPrefix v volumePrefix = true
  \/
  exists letter out w tr,
    trace m' = EvOutput (powershell (uniqueIdCommand letter)) ::
               EvDriveLetter letter :: tr /\
    len letter = 1 /\
    cmd_Output (powershell (uniqueIdCommand letter)) w =
      ((out, None), world m') /\
    v = strings_TrimSpace out.
Proof.
  revert c m; induction n as [|n IH]; intros c m.
  - cbn. unfold ret. discriminate.
  - turn_cases c m T; intros E.
    + eapply IH; eassumption.
    + injection E as -> ->.
      destruct (turn_value T) as [[[tr Htr] Hp]|Hr]; [left | right]; eauto.
    + discriminate.
Qed.

Lemma loop_safe n path c m :
  (forall p, filepath_Dir p <> "") ->
  driveLettersOk (trace m) = true ->
  fst (loop n path c m) <> Panics /\
  driveLettersOk (trace (snd (loop n path c m))) = true.
Proof.
  intros HD. revert c m; induction n as [|n IH]; intros c m Hm.
  - cbn. split; [discriminate | exact Hm].
  - turn_cases c m T; pose proof (turn_letters Hm T) as Hm'.
    + now apply IH.
    + cbn. split; [discriminate | exact Hm'].
    + exfalso. eapply turn_no_panic; eassumption.
Qed.

(** *** The claims about termination, errors and safety *)

(** C2: whatever the path and the host, the walker stats at most 256
    times (once per turn) and dereferences at most 256 times; and when the
    first 256 turns all go on to a next one, as on a cycle of links, it
    returns the failure of the bound, having made exactly 256 turns. *)
Theorem findClosestVolume_bounded (path : string) (m : Machine World) :
  count isLstat (trace (snd (findClosestVolume path m))) <=
    count isLstat (trace m) + 256 /\
  count isRun (trace (snd (findClosestVolume path m))) <=
    count isRun (trace m) + 256 /\
  (continues 256 path m = true ->
   fst (findClosestVolume path m) =
     Returns ("", Some (Errorf ("Failed to find the closest volume for path="
                                ++ path))) /\
   count isLstat (trace (snd (findClosestVolume path m))) =
     count isLstat (trace m) + 256).
Proof.
  unfold findClosestVolume.
  destruct (loop_counts 256 path path m) as [H1 H2].
  repeat split; try assumption; now apply loop_exhausted.
Qed.

Lemma findClosestVolume_error_empty path m s e m' :
  findClosestVolume path m = (Returns (s, Some e), m') -> s = "".
Proof. apply loop_error_empty. Qed.

(** C8: when [GetClosestVolumeIDFromTargetPath] returns an error, the
    string beside it is empty; so it is for [findClosestVolume], whose
    error it wraps. *)
Theorem GetClosestVolumeIDFromTargetPath_all_or_nothing
    (path : string) (m : Machine World)
    (s : string) (e : error) (m' : Machine World) :
  (GetClosestVolumeIDFromTargetPath path m = (Returns (s, Some e), m') ->
   s = "" /\
   exists e0, findClosestVolume path m = (Returns ("", Some e0), m') /\
              e = Errorf ("error getting the closest volume for the path="
                          ++ path ++ ", err=" ++ Error e0)) /\
  (findClosestVolume path m = (Returns (s, Some e), m') -> s = "").
Proof.
  split; [|apply findClosestVolume_error_empty].
  unfold GetClosestVolumeIDFromTargetPath, bind, ret.
  destruct (findClosestVolume path m) as [[[v [e0|]]|] m0] eqn:E;
    intros [= <- <- <-].
  split; [reflexivity|]. exists e0. split; [|reflexivity].
  now rewrite (findClosestVolume_error_empty _ _ E).
Qed.

(** C9: if [filepath.Dir] never gives the empty string, then wherever the
    root check fires the candidate is not empty and its slice of one byte
    exists; so the walker never panics, and every argument it passes to
    [getVolumeForDriveLetter] is exactly one byte long, which is the case
    the error branch of that function excludes. *)
Theorem findClosestVolume_root_letter (path : string) (m : Machine World) :
  (forall p, filepath_Dir p <> "") ->
  driveLettersOk (trace m) = true ->
  (forall c, (c =? filepath_Dir c)%string = true ->
             c <> "" /\
             exists letter, slice c 0 1 = Some letter /\ len letter = 1) /\
  fst (findClosestVolume path m) <> Panics /\
  driveLettersOk (trace (snd (findClosestVolume path m))) = true.
Proof.
  intros HD Hm. split; [|now apply loop_safe].
  intros c Hc. apply String.eqb_eq in Hc.
  assert (Hne : c <> "") by (rewrite Hc; apply HD).
  split; [exact Hne|].
  pose proof (slice_first c) as HS.
  destruct (slice c 0 1) as [letter|]; [|contradiction].
  exists letter. split; [reflexivity | apply HS].
Qed.

(** C3, as amended: an identifier the walker returns either comes from
    the link branch, and then it starts with the marker, or comes from the
    root branch, and then it is the trimmed output of the drive-letter
    lookup as it is, with the marker only if the lookup gave it. *)
Theorem findClosestVolume_prefix_or_lookup
    (path : string) (m : Machine World) (v : string) (m' : Machine World) :
  findClosestVolume path m = (Returns (v, None), m') ->
  (exists argv tr, trace m' = EvRun argv :: tr) /\
  HasPrefix v volumePrefix = true
  \/
  exists letter out w tr,
    trace m' = EvOutput (powershell (uniqueIdCommand letter)) ::
               EvDriveLetter letter :: tr /\
    len letter = 1 /\
    cmd_Output (powershell (uniqueIdCommand letter)) w =
      ((out, None), world m') /\
    v = strings_TrimSpace out.
Proof. apply loop_value. Qed.

(** *** The drive-letter resolver *)

(** C7: on a string whose length is not one, [getVolumeForDriveLetter]
    returns the empty string with its error, and does so without any call
    of the host: the world is as before and the log holds no new
    command. *)
Theorem getVolumeForDriveLetter_invalid (path : string) (m : Machine World) :
  len path <> 1 ->
  getVolumeForDriveLetter path m =
    (Returns ("", Some (Errorf ("The path=" ++ path ++
                                " is not a valid DriverLetter"))),
     after (world m) [EvDriveLetter path] m) /\
  count isExec (trace (snd (getVolumeForDriveLetter path m))) =
    count isExec (trace m).
Proof.
  intros H. apply Nat.eqb_neq in H.
  unfold getVolumeForDriveLetter, bind, emit, ret, after.
  rewrite H. cbn. split; reflexivity.
Qed.

Lemma getVolumeForDriveLetter_Lstat_count (path : string) (m : Machine World) :
  count isLstat (trace (snd (getVolumeForDriveLetter path m))) =
  count isLstat (trace m).
Proof.
  unfold getVolumeForDriveLetter, bind, emit, call, ret.
  destruct (negb (len path =? 1)%nat); cbn; [reflexivity|].
  destruct (cmd_Output _ _) as [[out [e|]] w]; reflexivity.
Qed.

(** *** Chains of links *)

Lemma iteration_symlink (p t : string) (m : Machine World) :
  is_symlink_to p t ->
  exists w,
    iteration p m =
    (Returns (if Match VolumeRegexp t then Done (ensureVolumePrefix t, None)
              else Continue t),
     after w [EvRun (powershell (targetCommand p)); EvLstat p] m).
Proof.
  intros [HL HR].
  destruct (HL (world m)) as (fi & w1 & EL & HM).
  destruct (HR w1) as (out & w2 & ER & <-).
  exists w2. unfold iteration, bind. rewrite Lstat_run, EL. cbn [fst snd].
  apply Z.eqb_neq in HM. rewrite HM. cbn [negb].
  unfold dereferenceSymlink, bind, call, ret. cbn [world after].
  rewrite ER. cbn.
  destruct (Match VolumeRegexp (strings_TrimSpace out)); reflexivity.
Qed.

Lemma loop_symlink_chain (p : string) (hops : list string) (t : string) :
  symlink_chain p hops t ->
  forallb (fun q => negb (Match VolumeRegexp q)) hops = true ->
  Match VolumeRegexp t = true ->
  forall n path m,
    List.length hops < n ->
    exists m',
      loop n path p m = (Returns (ensureVolumePrefix t, None), m') /\
      count isRun (trace m') = count isRun (trace m) + S (List.length hops) /\
      count isLstat (trace m') = count isLstat (trace m) + S (List.length hops).
Proof.
  induction 1 as [p t HL|p q hops t HL _ IH]; intros Hhops Ht n path m Hn;
    (destruct n as [|n]; [cbn in Hn; lia|]);
    rewrite loop_S; destruct (iteration_symlink m HL) as [w ->].
  - rewrite Ht. eexists; split; [reflexivity|].
    unfold after; cbn [trace]; rewrite !count_app; cbn; lia.
  - cbn [forallb] in Hhops. apply andb_true_iff in Hhops.
    destruct Hhops as [Hq Hhops]. apply negb_true_iff in Hq. rewrite Hq.
    cbn [List.length] in Hn.
    destruct (IH Hhops Ht n path
                 (after w [EvRun (powershell (targetCommand p)); EvLstat p] m))
      as (m' & -> & HR & HS); [lia|].
    eexists; split; [reflexivity|].
    unfold after in HR, HS; cbn [trace] in HR, HS.
    rewrite count_app in HR, HS. cbn in HR, HS. cbn [List.length]. lia.
Qed.

(** C1, as amended: for a chain of k links, k below 256, none of whose
    inner targets is volume-shaped and whose last target is, the walker
    returns the normalized last target after exactly k dereferences (and k
    stats).  The result starts with the marker; it is the target itself if
    that started with the marker and the marker before the target if not;
    and it holds the marker exactly once when the target, its leading marker
    apart, holds no question mark. *)
Theorem findClosestVolume_symlink_chain
    (p : string) (hops : list string) (t : string) (m : Machine World) :
  symlink_chain p hops t ->
  S (List.length hops) < 256 ->
  forallb (fun q => negb (Match VolumeRegexp q)) hops = true ->
  Match VolumeRegexp t = true ->
  exists m',
    findClosestVolume p m = (Returns (ensureVolumePrefix t, None), m') /\
    count isRun (trace m') = count isRun (trace m) + S (List.length hops) /\
    count isLstat (trace m') = count isLstat (trace m) + S (List.length hops) /\
    HasPrefix (ensureVolumePrefix t) volumePrefix = true /\
    (HasPrefix t volumePrefix = true -> ensureVolumePrefix t = t) /\
    (HasPrefix t volumePrefix = false ->
     ensureVolumePrefix t = volumePrefix ++ t) /\
    (noQuestionMark (withoutPrefix t) = true ->
     occurrences volumePrefix (ensureVolumePrefix t) = 1).
Proof.
  intros HC Hk Hhops Ht.
  destruct (loop_symlink_chain HC Hhops Ht (n := 256) p m) as (m' & E & HR & HS);
    [lia|].
  exists m'. unfold findClosestVolume.
  repeat split; try assumption.
  - apply ensureVolumePrefix_has_prefix.
  - apply ensureVolumePrefix_fixed.
  - apply ensureVolumePrefix_adds.
  - intros H. rewrite ensureVolumePrefix_withoutPrefix. now apply occurrences_once.
Qed.

(** *** Plain climbs *)

Lemma iteration_plain (p : string) (m : Machine World) :
  is_plain p ->
  exists w,
    iteration p m =
    (if (p =? filepath_Dir p)%string then
       match slice (filepath_Dir p) 0 1 with
       | None => panic
       | Some letter => bind (getVolumeForDriveLetter letter) (fun r => ret (Done r))
       end
     else ret (Continue (filepath_Dir p)))
      (after w [EvLstat p] m).
Proof.
  intros HP. destruct (HP (world m)) as (fi & w1 & EL & HM).
  exists w1. unfold iteration, bind. rewrite Lstat_run, EL. cbn [fst snd].
  apply Z.eqb_eq in HM. rewrite HM. cbn [negb].
  destruct (p =? filepath_Dir p)%string; [|reflexivity].
  destruct (slice (filepath_Dir p) 0 1) as [letter|]; [|reflexivity].
  destruct (getVolumeForDriveLetter letter _) as [[[v [e|]]|] m2] eqn:E;
    try reflexivity.
  (* on an error the resolver's string is already empty *)
  revert E. unfold getVolumeForDriveLetter, bind, emit, call, ret.
  destruct (negb (len letter =? 1)%nat); cbn.
  - now intros [= <- <- <-].
  - destruct (cmd_Output _ _) as [[out [e'|]] w]; [|discriminate].
    now intros [= <- <- <-].
Qed.

Lemma loop_climbs (n : nat) :
  forall p root fuel path m,
    climbs n p root -> n < fuel -> root <> "" ->
    exists m1,
      loop fuel path p m = getVolumeForDriveLetter (substring 0 1 root) m1 /\
      count isLstat (trace m1) = count isLstat (trace m) + S n.
Proof.
  induction n as [|n IH]; intros p root fuel path m HC Hf Hr;
    (destruct fuel as [|fuel]; [lia|]); rewrite loop_S.
  - destruct HC as (-> & HD & HP).
    destruct (iteration_plain m HP) as [w ->]. rewrite HD.
    apply String.eqb_eq in HD. rewrite <- HD.
    pose proof (slice_first root) as HS.
    destruct (slice root 0 1) as [letter|]; [|contradiction].
    destruct HS as (_ & _ & ->).
    exists (after w [EvLstat root] m). split.
    + unfold bind, ret.
      destruct (getVolumeForDriveLetter _ _) as [[r|] m2]; reflexivity.
    + unfold after; cbn [trace]; rewrite count_app; cbn; lia.
  - destruct HC as (HD & HP & HC).
    destruct (iteration_plain m HP) as [w ->]. rewrite HD. unfold ret.
    destruct (@IH _ _ fuel path (after w [EvLstat p] m) HC) as (m1 & -> & HN);
      [lia | assumption |].
    exists m1. split; [reflexivity|].
    rewrite HN. unfold after; cbn [trace]; rewrite count_app; cbn; lia.
Qed.

(** C5, as amended: for a path from which a root (not empty) is reached by
    n parent levels with no link on the way, n below 256, the walker returns
    what [getVolumeForDriveLetter] returns for the first byte of the root,
    and stats exactly n + 1 times. *)
Theorem findClosestVolume_plain_climb
    (n : nat) (p root : string) (m : Machine World) :
  climbs n p root -> n < 256 -> root <> "" ->
  exists m1,
    findClosestVolume p m = getVolumeForDriveLetter (substring 0 1 root) m1 /\
    count isLstat (trace m1) = count isLstat (trace m) + (n + 1) /\
    count isLstat (trace (snd (findClosestVolume p m))) =
      count isLstat (trace m) + (n + 1).
Proof.
  intros HC Hn Hr.
  destruct (@loop_climbs n p root 256 p m HC Hn Hr) as (m1 & E & HN).
  exists m1. unfold findClosestVolume. rewrite E.
  rewrite getVolumeForDriveLetter_Lstat_count.
  repeat split; lia.
Qed.

(** *** The sibling without a bound *)

Lemma halts_in_O (mount : string) (w : World) :
  halts_in 0 mount w =
  let '((out, err), _) :=
    cmd_CombinedOutput (powershell (targetCommand mount)) w in
  isError err || (len out =? 0)%nat ||
  HasPrefix (strings_TrimSpace out) "Volume".
Proof.
  cbn [halts_in]. now destruct (cmd_CombinedOutput _ _) as [[out err] w'].
Qed.

Lemma halts_in_S (h : nat) (mount : string) (w : World) :
  halts_in (S h) mount w =
  let '((out, err), w') :=
    cmd_CombinedOutput (powershell (targetCommand mount)) w in
  negb (isError err || (len out =? 0)%nat ||
        HasPrefix (strings_TrimSpace out) "Volume") &&
  halts_in h (strings_TrimSpace out) w'.
Proof.
  cbn [halts_in]. now destruct (cmd_CombinedOutput _ _) as [[out err] w'].
Qed.

Lemma getTargetHop_run (mount : string) (m : Machine World) :
  getTargetHop mount m =
  let '((out, err), w) :=
    cmd_CombinedOutput (powershell (targetCommand mount)) (world m) in
  (Returns
     (if isError err || (len out =? 0)%nat then
        Resolved ("", Some (Errorf ("error getting volume from mount. cmd: "
                                    ++ targetCommand mount ++ ", output: " ++
                                    out ++ ", error: " ++ fmt_v err)))
      else if negb (HasPrefix (strings_TrimSpace out) "Volume") then
        Recurse (strings_TrimSpace out)
      else Resolved (ensureVolumePrefix (strings_TrimSpace out), None)),
   after w [EvCombinedOutput (powershell (targetCommand mount))] m).
Proof.
  unfold getTargetHop, runExec, bind, call, ret, after.
  destruct (cmd_CombinedOutput _ _) as [[out err] w].
  destruct (isError err || (len out =? 0)%nat); [reflexivity|].
  destruct (negb (HasPrefix (strings_TrimSpace out) "Volume")); reflexivity.
Qed.

(** [getTarget] never panics: it returns, or the depth is used up. *)
Lemma getTarget_outcome (fuel : nat) :
  forall mount m, exists o m', getTarget fuel mount m = (Returns o, m').
Proof.
  induction fuel as [|fuel IH]; intros mount m; cbn [getTarget].
  - unfold ret; eauto.
  - unfold bind. rewrite getTargetHop_run.
    destruct (cmd_CombinedOutput _ _) as [[out err] w].
    destruct (isError err || (len out =? 0)%nat); [unfold ret; eauto|].
    destruct (negb (HasPrefix (strings_TrimSpace out) "Volume"));
      [apply IH | unfold ret; eauto].
Qed.

(** With depth [fuel], [getTarget] returns exactly when the hops halt in
    fewer than [fuel] further hops. *)
Lemma getTarget_halts (fuel : nat) :
  forall mount m,
    (exists r m', getTarget fuel mount m = (Returns (Some r), m')) <->
    (exists h, h < fuel /\ halts_in h mount (world m) = true).
Proof.
  induction fuel as [|fuel IH]; intros mount m.
  - cbn. unfold ret. split.
    + intros (r & m' & E); discriminate.
    + intros (h & Hh & _); lia.
  - cbn [getTarget]. unfold bind. rewrite getTargetHop_run.
    destruct (cmd_CombinedOutput (powershell (targetCommand mount)) (world m))
      as [[out err] w] eqn:EC.
    destruct (isError err || (len out =? 0)%nat) eqn:E1.
    { split; [|unfold ret; eauto].
      intros _. exists 0. split; [lia|]. now rewrite halts_in_O, EC, E1. }
    destruct (HasPrefix (strings_TrimSpace out) "Volume") eqn:E2; cbn [negb].
    { split; [|unfold ret; eauto].
      intros _. exists 0. split; [lia|].
      rewrite halts_in_O, EC, E1, E2. reflexivity. }
    rewrite IH. cbn [world after]. split.
    + intros (h & Hh & H). exists (S h). split; [lia|].
      now rewrite halts_in_S, EC, E1, E2.
    + intros ([|h] & Hh & H).
      * rewrite halts_in_O, EC, E1, E2 in H. discriminate.
      * rewrite halts_in_S, EC, E1, E2 in H. exists h. split; [lia | exact H].
Qed.

(** C10: [getTarget] carries no bound.  It returns, given depth enough,
    exactly when dereferencing over and over meets after finitely many
    hops an error of the command, an empty output or a target that starts
    with Volume; and when no number of hops does, as on a cycle of links,
    no depth makes [getTarget] or [GetVolumeIDFromTargetPath] return: no
    failure takes the place of the missing bound. *)
Theorem getTarget_returns_iff_halts (mount : string) (m : Machine World) :
  ((exists fuel r m', getTarget fuel mount m = (Returns (Some r), m')) <->
   (exists h, halts_in h mount (world m) = true)) /\
  ((forall h, halts_in h mount (world m) = false) ->
   forall fuel,
     fst (getTarget fuel mount m) = Returns None /\
     fst (GetVolumeIDFromTargetPath fuel mount m) = Returns None).
Proof.
  split.
  - split.
    + intros (fuel & H). apply getTarget_halts in H.
      destruct H as (h & _ & H); eauto.
    + intros (h & H). exists (S h). apply getTarget_halts. eauto.
  - intros Hno fuel.
    assert (E : fst (getTarget fuel mount m) = Returns None).
    { destruct (getTarget_outcome fuel mount m) as ([r|] & m' & E);
        rewrite E; [|reflexivity].
      assert (Hh : exists h, h < fuel /\ halts_in h mount (world m) = true)
        by (apply getTarget_halts; eauto).
      destruct Hh as (h & _ & Hh). rewrite Hno in Hh. discriminate. }
    split; [exact E|].
    unfold GetVolumeIDFromTargetPath, bind.
    destruct (getTarget fuel mount m) as [o m']. cbn in E. now subst o.
Qed.

End Walker.

(** ** The claims on the in-memory host *)

Section Examples.

(** *** Facts about the in-memory host *)

Lemma Fake_Dir_nonempty (p : string) : Fake.Dir p <> "".
Proof.
  unfold Fake.Dir. destruct (Fake.beforeLastSeparator p) as [d|]; [|discriminate].
  destruct (len d <=? 2)%nat eqn:E.
  - intros H. apply append_eq_nil in H. destruct H; discriminate.
  - intros ->. discriminate.
Qed.

Lemma Fake_plain (fs : Fake.FS) (p : string) :
  (p =? "")%string = false -> Fake.lookup p (Fake.links fs) = None ->
  is_plain (host := Fake.host fs) p.
Proof.
  intros Hp Hl []. exists {| Mode := Z.lor ModeDir 511 |}, tt.
  cbn [os_Lstat Fake.host]. unfold Fake.Lstat. rewrite Hp, Hl.
  split; reflexivity.
Qed.

Lemma Fake_symlink (fs : Fake.FS) (p t : string) :
  (p =? "")%string = false ->
  Fake.lookup p (Fake.links fs) = Some t ->
  Fake.lookup (targetCommand p) (Fake.commands targetCommand (Fake.links fs))
    = Some t ->
  Fake.TrimSpace (t ++ Fake.crlf) = t ->
  is_symlink_to (host := Fake.host fs) p t.
Proof.
  intros Hp Hl Hc Ht. split; intros [].
  - exists {| Mode := Z.lor ModeSymlink 438 |}, tt.
    cbn [os_Lstat Fake.host]. unfold Fake.Lstat. rewrite Hp, Hl.
    split; [reflexivity | discriminate].
  - exists (t ++ Fake.crlf), tt.
    cbn [cmd_Run strings_TrimSpace Fake.host]. unfold Fake.Run.
    cbn [Fake.command powershell]. rewrite Hc. split; [reflexivity | exact Ht].
Qed.

Lemma beforeLastSeparator_element (s : string) :
  Fake.beforeLastSeparator (s ++ "\d") = Some s.
Proof.
  induction s as [|c s IH]; [reflexivity|].
  cbn [append Fake.beforeLastSeparator]. now rewrite IH.
Qed.

Lemma length_deep (n : nat) : String.length (Fake.deep n) = 2 + 2 * n.
Proof.
  induction n as [|n IH]; [reflexivity|].
  cbn [Fake.deep]. rewrite length_append, IH. cbn. lia.
Qed.

Lemma Dir_deep (n : nat) : Fake.Dir (Fake.deep (S (S n))) = Fake.deep (S n).
Proof.
  cbn [Fake.deep]. unfold Fake.Dir. rewrite beforeLastSeparator_element.
  replace (len (Fake.deep n ++ "\d") <=? 2)%nat with false; [reflexivity|].
  symmetry. apply Nat.leb_gt. unfold len.
  rewrite length_append, length_deep. cbn. lia.
Qed.

Lemma eqb_length (a b : string) :
  String.length a <> String.length b -> (a =? b)%string = false.
Proof. intros H. apply String.eqb_neq. intros ->. now apply H. Qed.

Lemma deep_plain (n : nat) : is_plain (host := Fake.host fsBare) (Fake.deep n).
Proof.
  apply Fake_plain; [|reflexivity].
  apply eqb_length. rewrite length_deep. cbn. lia.
Qed.

(** On the host without links, [Fake.deep (S n)] lies [S n] levels below
    the root of drive C. *)
Lemma climbs_deep (n : nat) :
  climbs (host := Fake.host fsBare) (S n) (Fake.deep (S n)) "C:\".
Proof.
  induction n as [|n IH].
  - cbn [climbs filepath_Dir Fake.host].
    repeat split; try reflexivity; now apply Fake_plain.
  - cbn [climbs filepath_Dir Fake.host] in *. rewrite Dir_deep.
    split; [|split; [apply deep_plain | exact IH]].
    apply eqb_length. rewrite !length_deep. lia.
Qed.

Lemma halts_in_link (fs : Fake.FS) (h : nat) (mount t : string) :
  Fake.lookup (targetCommand mount)
    (Fake.commands targetCommand (Fake.links fs)) = Some t ->
  Fake.TrimSpace (t ++ Fake.crlf) = t ->
  HasPrefix t "Volume" = false ->
  halts_in (host := Fake.host fs) (S h) mount tt =
  halts_in (host := Fake.host fs) h t tt.
Proof.
  intros Hc Ht Hp. rewrite halts_in_S.
  cbn [cmd_CombinedOutput strings_TrimSpace Fake.host]. unfold Fake.CombinedOutput.
  cbn [Fake.command powershell]. rewrite Hc, Ht, Hp.
  replace (len (t ++ Fake.crlf) =? 0)%nat with false; [reflexivity|].
  symmetry. apply Nat.eqb_neq. unfold len. rewrite length_append. cbn. lia.
Qed.

(** On two links pointing at each other the hops never halt. *)
Lemma cycle_never_halts (h : nat) :
  halts_in (host := Fake.host fsCycle) h "C:\a" tt = false /\
  halts_in (host := Fake.host fsCycle) h "C:\b" tt = false.
Proof.
  induction h as [|h [IHa IHb]]; [split; reflexivity|].
  split.
  - rewrite (@halts_in_link fsCycle h "C:\a" "C:\b"); auto.
  - rewrite (@halts_in_link fsCycle h "C:\b" "C:\a"); auto.
Qed.

(** *** Chains of links *)

Lemma chain_two_hops :
  symlink_chain (host := Fake.host fsTwoHops) "C:\mnt\disk2" ["D:\mount2"]
    "Volume{99999999-0000-1111-2222-333333333333}".
Proof.
  apply chain_hop; [|apply chain_last]; now apply Fake_symlink.
Qed.

(** The third scenario of the specification: two hops, then the volume. *)
Lemma findClosestVolume_symlink_chain_witness :
  exists m',
    findClosestVolume (host := Fake.host fsTwoHops) "C:\mnt\disk2" Fake.boot =
      (Returns ("\\?\Volume{99999999-0000-1111-2222-333333333333}", None), m')
    /\ count isRun (trace m') = 2
    /\ occurrences volumePrefix
         (ensureVolumePrefix "Volume{99999999-0000-1111-2222-333333333333}") = 1.
Proof.
  destruct (@findClosestVolume_symlink_chain unit (Fake.host fsTwoHops)
              "C:\mnt\disk2" ["D:\mount2"]
              "Volume{99999999-0000-1111-2222-333333333333}" Fake.boot)
    as (m' & E & HR & _ & _ & _ & _ & H1).
  - exact chain_two_hops.
  - cbn; lia.
  - reflexivity.
  - reflexivity.
  - exists m'. split; [exact E|]. split; [exact HR|]. apply H1. reflexivity.
Defined.

(** C1, as stated, fails twice.  First: a chain of two links whose last
    target is volume-shaped, but whose middle link lies in a directory with
    a volume-like name; the walker takes the middle link for a volume and
    returns it, normalized, after one dereference.  Second: a link whose
    volume-shaped target holds the marker twice; it is returned as it is. *)
Lemma findClosestVolume_symlink_chain_counterexample :
  (symlink_chain (host := Fake.host fsShapedHop) "C:\mnt\a" ["C:\Volume{x}\b"]
     "Volume{y}" /\
   Match VolumeRegexp "Volume{y}" = true /\
   ensureVolumePrefix "Volume{y}" = "\\?\Volume{y}" /\
   fst (findClosestVolume (host := Fake.host fsShapedHop) "C:\mnt\a" Fake.boot)
     = Returns ("\\?\C:\Volume{x}\b", None) /\
   count isRun
     (trace (snd (findClosestVolume (host := Fake.host fsShapedHop)
                    "C:\mnt\a" Fake.boot))) = 1)
  /\
  (symlink_chain (host := Fake.host fsTwice) "C:\mnt\d" [] "\\?\\\?\Volume{a}" /\
   Match VolumeRegexp "\\?\\\?\Volume{a}" = true /\
   fst (findClosestVolume (host := Fake.host fsTwice) "C:\mnt\d" Fake.boot)
     = Returns ("\\?\\\?\Volume{a}", None) /\
   occurrences volumePrefix "\\?\\\?\Volume{a}" = 2).
Proof.
  split.
  - split; [|repeat split].
    apply chain_hop; [|apply chain_last]; now apply Fake_symlink.
  - split; [|repeat split].
    apply chain_last; now apply Fake_symlink.
Qed.

(** *** The bound *)

(** Two links pointing at each other: the failure of the bound after 256
    turns. *)
Lemma findClosestVolume_bounded_witness :
  fst (findClosestVolume (host := Fake.host fsCycle) "C:\a" Fake.boot) =
    Returns ("", Some (Errorf "Failed to find the closest volume for path=C:\a"))
  /\
  count isLstat
    (trace (snd (findClosestVolume (host := Fake.host fsCycle) "C:\a" Fake.boot)))
    = 256.
Proof.
  destruct (@findClosestVolume_bounded unit (Fake.host fsCycle) "C:\a" Fake.boot)
    as (_ & _ & H).
  apply H. vm_compute. reflexivity.
Defined.

(** *** The marker on what is returned *)

(** C3, as stated, fails: at the root of drive C the lookup answers
    Volume{a} and the walker returns it without the marker. *)
Lemma findClosestVolume_prefix_counterexample :
  fst (getVolumeForDriveLetter (host := Fake.host fsBare) "C" Fake.boot) =
    Returns ("Volume{a}", None) /\
  fst (findClosestVolume (host := Fake.host fsBare) "C:\" Fake.boot) =
    Returns ("Volume{a}", None) /\
  HasPrefix "Volume{a}" volumePrefix = false /\
  ensureVolumePrefix "Volume{a}" = "\\?\Volume{a}".
Proof. repeat split. Qed.

Lemma findClosestVolume_prefix_or_lookup_witness :
  (exists argv tr,
      trace (snd (findClosestVolume (host := Fake.host fsMount)
                    "C:\mnt\disk1" Fake.boot)) = EvRun argv :: tr) /\
  HasPrefix "\\?\Volume{11111111-2222-3333-4444-555555555555}" volumePrefix
    = true
  \/
  exists letter out w tr,
    trace (snd (findClosestVolume (host := Fake.host fsMount)
                  "C:\mnt\disk1" Fake.boot)) =
      EvOutput (powershell (uniqueIdCommand letter)) ::
      EvDriveLetter letter :: tr /\
    len letter = 1 /\
    cmd_Output (Host := Fake.host fsMount)
      (powershell (uniqueIdCommand letter)) w =
      ((out, None),
       world (snd (findClosestVolume (host := Fake.host fsMount)
                     "C:\mnt\disk1" Fake.boot))) /\
    "\\?\Volume{11111111-2222-3333-4444-555555555555}" = Fake.TrimSpace out.
Proof.
  apply (@findClosestVolume_prefix_or_lookup unit (Fake.host fsMount)
           "C:\mnt\disk1" Fake.boot).
  vm_compute. reflexivity.
Defined.

(** *** Plain climbs *)

(** The second scenario of the specification: a file three levels below
    the root of drive C. *)
Lemma findClosestVolume_plain_climb_witness :
  exists m1,
    findClosestVolume (host := Fake.host fsMount) "C:\data\nested\file.txt"
      Fake.boot =
    getVolumeForDriveLetter (host := Fake.host fsMount)
      (substring 0 1 "C:\") m1 /\
    count isLstat (trace m1) = count isLstat (trace Fake.boot) + (3 + 1) /\
    count isLstat
      (trace (snd (findClosestVolume (host := Fake.host fsMount)
                     "C:\data\nested\file.txt" Fake.boot))) =
    count isLstat (trace Fake.boot) + (3 + 1).
Proof.
  apply (@findClosestVolume_plain_climb unit (Fake.host fsMount) 3).
  - cbn [climbs filepath_Dir Fake.host].
    repeat split; try reflexivity; now apply Fake_plain.
  - lia.
  - discriminate.
Defined.

(** C5, as stated, fails: from a path 256 levels below the root, with no
    link on the way, the walker stats 256 times and returns the failure of
    the bound, not what the lookup for drive C answers. *)
Lemma findClosestVolume_plain_climb_counterexample :
  climbs (host := Fake.host fsBare) 256 (Fake.deep 256) "C:\" /\
  fst (getVolumeForDriveLetter (host := Fake.host fsBare) "C" Fake.boot) =
    Returns ("Volume{a}", None) /\
  fst (findClosestVolume (host := Fake.host fsBare) (Fake.deep 256) Fake.boot) =
    Returns ("", Some (Errorf ("Failed to find the closest volume for path="
                               ++ Fake.deep 256))) /\
  count isLstat
    (trace (snd (findClosestVolume (host := Fake.host fsBare) (Fake.deep 256)
                   Fake.boot))) = 256.
Proof.
  split; [apply climbs_deep|].
  split; [reflexivity|].
  split; vm_compute; reflexivity.
Qed.

(** *** Errors *)

Lemma getVolumeForDriveLetter_invalid_witness :
  getVolumeForDriveLetter (host := Fake.host fsBare) "C:" Fake.boot =
    (Returns ("", Some (Errorf "The path=C: is not a valid DriverLetter")),
     {| world := tt; trace := [EvDriveLetter "C:"] |}) /\
  count isExec
    (trace (snd (getVolumeForDriveLetter (host := Fake.host fsBare) "C:"
                   Fake.boot))) = 0.
Proof.
  apply (@getVolumeForDriveLetter_invalid unit (Fake.host fsBare) "C:" Fake.boot).
  cbn. lia.
Defined.

(** The empty path cannot be stat'd: the error comes back wrapped, beside
    the empty string. *)
Lemma GetClosestVolumeIDFromTargetPath_all_or_nothing_witness :
  ("" : string) = "" /\
  exists e0,
    findClosestVolume (host := Fake.host fsBare) "" Fake.boot =
      (Returns ("", Some e0), {| world := tt; trace := [EvLstat ""] |}) /\
    Errorf "error getting the closest volume for the path=, err=The system cannot find the path specified."
    = Errorf ("error getting the closest volume for the path=" ++ "" ++
              ", err=" ++ Error e0).
Proof.
  apply (@GetClosestVolumeIDFromTargetPath_all_or_nothing unit
           (Fake.host fsBare) "" Fake.boot "").
  vm_compute. reflexivity.
Defined.

(** *** Safety at the root *)

Lemma findClosestVolume_root_letter_witness :
  (forall c, (c =? Fake.Dir c)%string = true ->
             c <> "" /\
             exists letter, slice c 0 1 = Some letter /\ len letter = 1) /\
  fst (findClosestVolume (host := Fake.host fsMount) "C:\data\nested\file.txt"
         Fake.boot) <> Panics /\
  driveLettersOk
    (trace (snd (findClosestVolume (host := Fake.host fsMount)
                   "C:\data\nested\file.txt" Fake.boot))) = true.
Proof.
  apply (@findClosestVolume_root_letter unit (Fake.host fsMount)
           "C:\data\nested\file.txt" Fake.boot).
  - exact Fake_Dir_nonempty.
  - reflexivity.
Defined.

(** *** The sibling without a bound *)

(** On two links pointing at each other [getTarget] uses up any depth,
    here 1000, where the walker gives the failure of its bound; on two
    links in a row that end at a volume it returns. *)
Lemma getTarget_returns_iff_halts_witness :
  (fst (getTarget (host := Fake.host fsCycle) 1000 "C:\a" Fake.boot) =
     Returns None /\
   fst (GetVolumeIDFromTargetPath (host := Fake.host fsCycle) 1000 "C:\a"
          Fake.boot) = Returns None) /\
  (exists fuel r m',
      getTarget (host := Fake.host fsTwoHops) fuel "C:\mnt\disk2" Fake.boot =
        (Returns (Some r), m')) /\
  fst (GetClosestVolumeIDFromTargetPath (host := Fake.host fsCycle) "C:\a"
         Fake.boot) =
    Returns ("", Some (Errorf "error getting the closest volume for the path=C:\a, err=Failed to find the closest volume for path=C:\a")).
Proof.
  split; [|split].
  - apply (@getTarget_returns_iff_halts unit (Fake.host fsCycle) "C:\a" Fake.boot).
    intros h. apply cycle_never_halts.
  - apply (@getTarget_returns_iff_halts unit (Fake.host fsTwoHops)
             "C:\mnt\disk2" Fake.boot).
    exists 1. reflexivity.
  - vm_compute. reflexivity.
Defined.

End Examples.


(** * Further properties of the package *)

(** ** The normalizer and the matcher together *)

Section NormalizerMore.

Lemma matchPrefix_Never (s : string) : matchPrefix Never s = false.
Proof. induction s as [|c s IH]; [reflexivity | exact IH]. Qed.

(** A word of the pattern starts with the byte V. *)
Lemma matchPrefix_VolumeRegexp_first (c : ascii) (s : string) :
  Ascii.eqb "V" c = false -> matchPrefix VolumeRegexp (String c s) = false.
Proof.
  intros H. cbn [matchPrefix VolumeRegexp nullable Lit andb orb deriv].
  rewrite H. cbn [cat]. apply matchPrefix_Never.
Qed.

(** X1: two strings have the same normal form exactly when they are equal
    up to one leading marker. *)
Theorem ensureVolumePrefix_eq_iff (a b : string) :
  ensureVolumePrefix a = ensureVolumePrefix b <->
  withoutPrefix a = withoutPrefix b.
Proof.
  rewrite !ensureVolumePrefix_withoutPrefix. split.
  - intros H. cbn in H. now injection H.
  - now intros ->.
Qed.

Lemma Match_ensureVolumePrefix (s : string) :
  Match VolumeRegexp (ensureVolumePrefix s) = Match VolumeRegexp s.
Proof.
  unfold ensureVolumePrefix; cbv zeta.
  destruct (HasPrefix s volumePrefix); cbn [negb]; [reflexivity|].
  change (volumePrefix ++ s)
    with (String "\" (String "\" (String "?" (String "\" s)))).
  cbn [Match].
  now rewrite !matchPrefix_VolumeRegexp_first.
Qed.

(** X2: normalizing neither makes nor unmakes the volume shape: the
    matcher gives the same answer before and after. *)
Theorem ensureVolumePrefix_keeps_shape (s : string) :
  Match VolumeRegexp (ensureVolumePrefix s) = Match VolumeRegexp s.
Proof. apply Match_ensureVolumePrefix. Qed.

End NormalizerMore.

(** ** The walker, further *)

Section WalkerMore.

Context {World : Type} {host : Host World}.

(** X3: whatever the command prints to stdout and whether or not it exits
    with success, any byte on stderr makes [dereferenceSymlink] fail with
    the empty string, after its one call of the host. *)
Theorem dereferenceSymlink_stderr_fails
    (path : string) (m : Machine World)
    (out errbuf : string) (err : option error) (w : World) :
  cmd_Run (powershell (targetCommand path)) (world m) = ((out, errbuf, err), w) ->
  errbuf <> "" ->
  exists e,
    dereferenceSymlink path m =
    (Returns ("", Some e), after w [EvRun (powershell (targetCommand path))] m).
Proof.
  intros ER Hne. unfold dereferenceSymlink, bind, call, ret, after.
  rewrite ER. destruct err as [e|]; [eauto|].
  destruct errbuf as [|c errbuf]; [contradiction | cbn; eauto].
Qed.

(** *** The calls of one resolution *)

Lemma count_zero_app (f : Event -> bool) (a b : list Event) :
  (count f (a ++ b) =? 0)%nat = (count f a =? 0)%nat && (count f b =? 0)%nat.
Proof.
  rewrite count_app.
  destruct (count f a), (count f b); reflexivity.
Qed.

Lemma lookupLast_none (events : list Event) :
  count isLookup events = 0 -> lookupLast events = true.
Proof.
  destruct events as [|[] events]; cbn; intros H; rewrite ?H; try reflexivity.
  discriminate.
Qed.

Lemma lookupLast_app (later earlier : list Event) :
  lookupLast later = true -> count isLookup earlier = 0 ->
  lookupLast (later ++ earlier) = true.
Proof.
  intros HL HE.
  assert (Hz : forall l, (count isLookup l =? 0)%nat = true ->
                         (count isLookup (l ++ earlier) =? 0)%nat = true).
  { intros l Hl. rewrite count_zero_app, Hl, HE. reflexivity. }
  destruct later as [|e later]; [now apply lookupLast_none|].
  destruct e; cbn [app lookupLast] in *;
    first [now apply Hz | now apply (Hz (_ :: later))].
Qed.

(** What one turn adds to the log. *)
Lemma turn_events c m o m' :
  turn c m (o, m') ->
  exists events,
    trace m' = (events ++ trace m)%list /\
    count isCombinedOutput events = 0 /\
    count isRun events <= count isLstat events /\
    lookupLast events = true /\
    (forall c', o = Returns (Continue c') -> count isLookup events = 0).
Proof.
  intros H; inversion H; subst; unfold after; cbn [trace];
    (eexists; split; [reflexivity|]);
    cbn; repeat split; try lia; intros; discriminate.
Qed.

Lemma loop_events n path : forall c m,
  exists events,
    trace (snd (loop n path c m)) = (events ++ trace m)%list /\
    count isCombinedOutput events = 0 /\
    count isRun events <= count isLstat events /\
    lookupLast events = true.
Proof.
  induction n as [|n IH]; intros c m.
  - exists []. cbn. repeat split; lia.
  - rewrite loop_S. pose proof (iteration_turn c m) as T.
    destruct (iteration c m) as [[[c'|r]|] m1];
      destruct (turn_events T) as (ev1 & E1 & HC1 & HR1 & HL1 & HK1).
    + destruct (IH c' m1) as (ev2 & E2 & HC2 & HR2 & HL2).
      exists (ev2 ++ ev1)%list. rewrite E2, E1, List.app_assoc.
      split; [reflexivity|]. rewrite !count_app.
      repeat split; try lia.
      apply lookupLast_app; [exact HL2 | now apply (HK1 c')].
    + exists ev1. cbn [snd]. auto.
    + exists ev1. cbn [snd]. auto.
Qed.

(** X4: in one resolution the walker never uses [runExec], dereferences
    no more often than it stats, and looks a drive letter up at most once,
    as its last call of the host. *)
Theorem findClosestVolume_calls (path : string) (m : Machine World) :
  exists events,
    trace (snd (findClosestVolume path m)) = (events ++ trace m)%list /\
    count isCombinedOutput events = 0 /\
    count isRun events <= count isLstat events /\
    lookupLast events = true.
Proof. apply loop_events. Qed.

(** *** Links first, then the climb *)

Lemma loop_follow_chain (p : string) (hops : list string) (t : string) :
  symlink_chain p hops t ->
  forallb (fun q => negb (Match VolumeRegexp q)) hops = true ->
  Match VolumeRegexp t = false ->
  forall n path m,
    exists m',
      loop (S (List.length hops) + n) path p m = loop n path t m' /\
      count isRun (trace m') = count isRun (trace m) + S (List.length hops) /\
      count isLstat (trace m') = count isLstat (trace m) + S (List.length hops).
Proof.
  induction 1 as [p t HL|p q hops t HL _ IH]; intros Hhops Ht n path m;
    cbn [List.length Nat.add]; rewrite loop_S;
    destruct (iteration_symlink m HL) as [w ->].
  - rewrite Ht. eexists; split; [reflexivity|].
    unfold after; cbn [trace]; rewrite !count_app; cbn; lia.
  - cbn [forallb] in Hhops. apply andb_true_iff in Hhops.
    destruct Hhops as [Hq Hhops]. apply negb_true_iff in Hq. rewrite Hq.
    destruct (IH Hhops Ht n path
                 (after w [EvRun (powershell (targetCommand p)); EvLstat p] m))
      as (m' & E & HR & HS).
    exists m'. split; [exact E|].
    unfold after in HR, HS; cbn [trace] in HR, HS.
    rewrite count_app in HR, HS. cbn in HR, HS. lia.
Qed.

Lemma loop_climbs_calls (n : nat) :
  forall p root fuel path m,
    climbs n p root -> n < fuel -> root <> "" ->
    exists m1,
      loop fuel path p m = getVolumeForDriveLetter (substring 0 1 root) m1 /\
      count isLstat (trace m1) = count isLstat (trace m) + S n /\
      count isRun (trace m1) = count isRun (trace m).
Proof.
  induction n as [|n IH]; intros p root fuel path m HC Hf Hr;
    (destruct fuel as [|fuel]; [lia|]); rewrite loop_S.
  - destruct HC as (-> & HD & HP).
    destruct (iteration_plain m HP) as [w ->]. rewrite HD.
    apply String.eqb_eq in HD. rewrite <- HD.
    pose proof (slice_first root) as HS.
    destruct (slice root 0 1) as [letter|]; [|contradiction].
    destruct HS as (_ & _ & ->).
    exists (after w [EvLstat root] m). split.
    + unfold bind, ret.
      destruct (getVolumeForDriveLetter _ _) as [[r|] m2]; reflexivity.
    + unfold after; cbn [trace]; rewrite !count_app; cbn; lia.
  - destruct HC as (HD & HP & HC).
    destruct (iteration_plain m HP) as [w ->]. rewrite HD. unfold ret.
    destruct (@IH _ _ fuel path (after w [EvLstat p] m) HC)
      as (m1 & -> & HN & HR); [lia | assumption |].
    exists m1. split; [reflexivity|].
    rewrite HN, HR. unfold after; cbn [trace]; rewrite !count_app; cbn; lia.
Qed.

(** X5: links first, then the climb.  When a chain of k links, no target
    of which is volume-shaped, ends at a plain path n levels below a root,
    and k + n is below 256, the walker returns what
    [getVolumeForDriveLetter] returns for the first byte of that root, after
    exactly k dereferences and k + n + 1 stats. *)
Theorem findClosestVolume_links_then_climb
    (p : string) (hops : list string) (t root : string) (n : nat)
    (m : Machine World) :
  symlink_chain p hops t ->
  forallb (fun q => negb (Match VolumeRegexp q)) (hops ++ [t]) = true ->
  climbs n t root ->
  root <> "" ->
  S (List.length hops) + n < 256 ->
  exists m1,
    findClosestVolume p m = getVolumeForDriveLetter (substring 0 1 root) m1 /\
    count isRun (trace m1) = count isRun (trace m) + S (List.length hops) /\
    count isLstat (trace m1) =
      count isLstat (trace m) + S (List.length hops) + S n.
Proof.
  intros HC Hall Hcl Hr Hk.
  rewrite List.forallb_app in Hall. apply andb_true_iff in Hall.
  destruct Hall as [Hhops Ht]. cbn in Ht. rewrite andb_true_r in Ht.
  apply negb_true_iff in Ht.
  unfold findClosestVolume.
  replace 256 with (S (List.length hops) + (255 - List.length hops)) by lia.
  destruct (loop_follow_chain HC Hhops Ht (255 - List.length hops) p m)
    as (m' & -> & HR & HS).
  destruct (@loop_climbs_calls n t root (255 - List.length hops) p m' Hcl)
    as (m1 & -> & HN & HR1); [lia | assumption |].
  exists m1. repeat split; lia.
Qed.

(** *** The sibling, further *)

Lemma Volume_not_marked (t : string) :
  HasPrefix t "Volume" = true -> HasPrefix t volumePrefix = false.
Proof.
  intros H. destruct (prefix_split _ _ H) as [r ->]. reflexivity.
Qed.

Lemma marked_not_Volume (t : string) :
  HasPrefix t volumePrefix = true -> HasPrefix t "Volume" = false.
Proof.
  intros H. destruct (prefix_split _ _ H) as [r ->]. reflexivity.
Qed.

Lemma getTarget_shape (fuel : nat) :
  forall mount m v err m',
    getTarget fuel mount m = (Returns (Some (v, err)), m') ->
    match err with
    | Some _ => v = ""
    | None => exists t, v = volumePrefix ++ t /\ HasPrefix t "Volume" = true
    end.
Proof.
  induction fuel as [|fuel IH]; intros mount m v err m'; cbn [getTarget].
  - unfold ret. discriminate.
  - unfold bind. rewrite getTargetHop_run.
    destruct (cmd_CombinedOutput _ _) as [[out e] w].
    destruct (isError e || (len out =? 0)%nat).
    { unfold ret. now intros [= <- <- _]. }
    destruct (HasPrefix (strings_TrimSpace out) "Volume") eqn:EV; cbn [negb].
    + unfold ret. intros [= <- <- _].
      exists (strings_TrimSpace out). split; [|exact EV].
      apply ensureVolumePrefix_adds. now apply Volume_not_marked.
    + apply IH.
Qed.

(** X6: what [GetVolumeIDFromTargetPath] returns without an error is
    always the marker followed by a text that starts with Volume, and what
    it returns beside an error is the empty string. *)
Theorem GetVolumeIDFromTargetPath_shape
    (fuel : nat) (mount : string) (m : Machine World)
    (v : string) (err : option error) (m' : Machine World) :
  GetVolumeIDFromTargetPath fuel mount m = (Returns (Some (v, err)), m') ->
  match err with
  | Some _ => v = ""
  | None => exists t, v = volumePrefix ++ t /\ HasPrefix t "Volume" = true
  end.
Proof.
  unfold GetVolumeIDFromTargetPath, bind, ret.
  destruct (getTarget fuel mount m) as [[[[v0 [e0|]]|]|] m0] eqn:E;
    try discriminate.
  - now intros [= <- <- _].
  - intros [= <- <- _]. exact (getTarget_shape _ _ _ E).
Qed.

(** X7: a target that already carries the marker does not start with
    Volume, so [getTarget] does not return it: it calls itself on that
    target, that is, asks the host for the target of the target. *)
Theorem getTarget_marked_target_recurses
    (fuel : nat) (mount out : string) (w : World) (m : Machine World) :
  cmd_CombinedOutput (powershell (targetCommand mount)) (world m)
    = ((out, None), w) ->
  out <> "" ->
  HasPrefix (strings_TrimSpace out) volumePrefix = true ->
  getTarget (S fuel) mount m =
  getTarget fuel (strings_TrimSpace out)
    (after w [EvCombinedOutput (powershell (targetCommand mount))] m).
Proof.
  intros EC Hne HP. cbn [getTarget]. unfold bind.
  rewrite getTargetHop_run, EC.
  destruct out as [|c out]; [contradiction|].
  cbn [isError len String.length Nat.eqb orb].
  now rewrite (marked_not_Volume _ HP).
Qed.

(** X8: the depth allowed does not matter once it is enough.  When the
    hops halt after h further hops, [getTarget] returns the same result on
    the same machine for every depth above h, having run exactly h + 1
    commands. *)
Theorem getTarget_depth (h : nat) :
  forall (fuel : nat) (mount : string) (m : Machine World),
    halts_in h mount (world m) = true -> h < fuel ->
    getTarget fuel mount m = getTarget (S h) mount m /\
    exists r m',
      getTarget (S h) mount m = (Returns (Some r), m') /\
      count isCombinedOutput (trace m') =
        count isCombinedOutput (trace m) + S h.
Proof.
  induction h as [|h IH]; intros fuel mount m H Hf;
    (destruct fuel as [|fuel]; [lia|]).
  - rewrite halts_in_O in H. cbn [getTarget]. unfold bind.
    rewrite getTargetHop_run.
    destruct (cmd_CombinedOutput _ _) as [[out e] w].
    destruct (isError e || (len out =? 0)%nat); cbn [orb] in H.
    { split; [reflexivity|]. unfold ret, after. do 2 eexists.
      split; [reflexivity|]. cbn [trace]. rewrite count_app. cbn. lia. }
    rewrite H. cbn [negb].
    split; [reflexivity|]. unfold ret, after. do 2 eexists.
    split; [reflexivity|]. cbn [trace]. rewrite count_app. cbn. lia.
  - rewrite halts_in_S in H.
    cbn [getTarget]. unfold bind. rewrite getTargetHop_run.
    destruct (cmd_CombinedOutput _ _) as [[out e] w].
    apply andb_true_iff in H. destruct H as [H1 H2].
    apply negb_true_iff, orb_false_iff in H1. destruct H1 as [H1 H3].
    rewrite H1, H3. cbn [negb].
    destruct (IH fuel (strings_TrimSpace out)
                 (after w [EvCombinedOutput (powershell (targetCommand mount))] m)
                 H2) as (E & r & m' & E' & HN); [lia|].
    split; [exact E|]. exists r, m'. split; [exact E'|].
    rewrite HN. unfold after. cbn [trace]. rewrite count_app. cbn. lia.
Qed.

(** *** The bound is exact *)

Lemma loop_chain_exhausted (p : string) (hops : list string) (t : string) :
  symlink_chain p hops t ->
  forallb (fun q => negb (Match VolumeRegexp q)) hops = true ->
  forall n path m,
    n <= List.length hops ->
    fst (loop n path p m) =
    Returns ("", Some (Errorf ("Failed to find the closest volume for path="
                               ++ path))).
Proof.
  induction 1 as [p t HL|p q hops t HL _ IH]; intros Hhops n path m Hn;
    (destruct n as [|n]; [reflexivity|]); cbn [List.length] in Hn; [lia|].
  rewrite loop_S. destruct (iteration_symlink m HL) as [w ->].
  cbn [forallb] in Hhops. apply andb_true_iff in Hhops.
  destruct Hhops as [Hq Hhops]. apply negb_true_iff in Hq. rewrite Hq.
  apply IH; [exact Hhops | lia].
Qed.

(** X13: the bound on links is exact.  A chain of k links, no inner target
    volume-shaped, the last one volume-shaped, is resolved when k is at most
    256 (256 included) and gives the failure of the bound when k is 257 or
    more. *)
Theorem findClosestVolume_chain_bound
    (p : string) (hops : list string) (t : string) (m : Machine World) :
  symlink_chain p hops t ->
  forallb (fun q => negb (Match VolumeRegexp q)) hops = true ->
  Match VolumeRegexp t = true ->
  (S (List.length hops) <= 256 ->
   fst (findClosestVolume p m) = Returns (ensureVolumePrefix t, None)) /\
  (256 < S (List.length hops) ->
   fst (findClosestVolume p m) =
   Returns ("", Some (Errorf ("Failed to find the closest volume for path="
                              ++ p)))).
Proof.
  intros HC Hhops Ht. unfold findClosestVolume. split; intros Hk.
  - destruct (loop_symlink_chain HC Hhops Ht (n := 256) p m) as (m' & -> & _);
      [lia | reflexivity].
  - apply (loop_chain_exhausted HC Hhops). lia.
Qed.

Lemma loop_climb_exhausted (fuel : nat) :
  forall n p root path m,
    climbs n p root -> fuel <= n ->
    fst (loop fuel path p m) =
    Returns ("", Some (Errorf ("Failed to find the closest volume for path="
                               ++ path))).
Proof.
  induction fuel as [|fuel IH]; intros n p root path m HC Hf; [reflexivity|].
  destruct n as [|n]; [lia|]. destruct HC as (HD & HP & HC).
  rewrite loop_S. destruct (iteration_plain m HP) as [w ->]. rewrite HD.
  unfold ret. apply (IH n _ root); [exact HC | lia].
Qed.

(** X14: the bound on the climb is exact.  From a plain path n levels
    below a root (not empty) the walker reaches the drive-letter lookup when
    n is at most 255 and gives the failure of the bound when n is 256 or
    more. *)
Theorem findClosestVolume_climb_bound
    (n : nat) (p root : string) (m : Machine World) :
  climbs n p root -> root <> "" ->
  (n <= 255 ->
   exists m1,
     findClosestVolume p m =
     getVolumeForDriveLetter (substring 0 1 root) m1) /\
  (256 <= n ->
   fst (findClosestVolume p m) =
   Returns ("", Some (Errorf ("Failed to find the closest volume for path="
                              ++ p)))).
Proof.
  intros HC Hr. unfold findClosestVolume. split; intros Hn.
  - destruct (@loop_climbs_calls n p root 256 p m HC) as (m1 & E & _);
      [lia | assumption | eauto].
  - now apply (@loop_climb_exhausted 256 n p root).
Qed.

(** *** What comes back from a link *)

Lemma turn_link_value c m v m' :
  turn c m (Returns (Done (v, None)), m') ->
  (Match VolumeRegexp v = true /\ HasPrefix v volumePrefix = true /\
   exists tr, trace m' = EvRun (powershell (targetCommand c)) :: tr)
  \/
  exists letter tr,
    trace m' = EvOutput (powershell (uniqueIdCommand letter)) ::
               EvDriveLetter letter :: tr.
Proof.
  intros H; inversion H; subst.
  - left. rewrite Match_ensureVolumePrefix. repeat split; try assumption.
    + apply ensureVolumePrefix_has_prefix.
    + eexists; reflexivity.
  - right. do 2 eexists; reflexivity.
Qed.

(** X15: an identifier the walker returns after a dereference, that is,
    one taken from a link, is volume-shaped and starts with the marker; the
    only other identifiers it returns come straight from the drive-letter
    lookup.  A link target that is not volume-shaped is never returned. *)
Theorem findClosestVolume_link_value
    (path : string) (m : Machine World) (v : string) (m' : Machine World) :
  findClosestVolume path m = (Returns (v, None), m') ->
  (Match VolumeRegexp v = true /\ HasPrefix v volumePrefix = true /\
   exists argv tr, trace m' = EvRun argv :: tr)
  \/
  exists letter tr,
    trace m' = EvOutput (powershell (uniqueIdCommand letter)) ::
               EvDriveLetter letter :: tr.
Proof.
  unfold findClosestVolume. generalize 256 as n, path at 2 as c. intros n.
  revert m; induction n as [|n IH]; intros m c.
  - cbn. unfold ret. discriminate.
  - rewrite loop_S. pose proof (iteration_turn c m) as T.
    destruct (iteration c m) as [[[c'|r]|] m1]; intros E.
    + eapply IH; eassumption.
    + injection E as -> ->.
      destruct (turn_link_value T) as [(H1 & H2 & tr & Htr)|H]; [left | right];
        eauto 6.
    + discriminate.
Qed.

End WalkerMore.

(** ** The operations on volumes *)

Section Replacing.

Lemma longestPrefix_Never (s : string) : longestPrefix Never s = None.
Proof. induction s as [|c s IH]; cbn; [reflexivity | now rewrite IH]. Qed.

Lemma longestPrefix_Star_Class (f : ascii -> bool) (s : string) :
  longestPrefix (Star (Class f)) s = Some (leading f s).
Proof.
  induction s as [|c s IH]; [reflexivity|].
  cbn [longestPrefix deriv leading nullable]. destruct (f c); cbn [cat].
  - now rewrite IH.
  - now rewrite longestPrefix_Never.
Qed.

Lemma longestPrefix_Plus_Class (f : ascii -> bool) (c : ascii) (s : string) :
  longestPrefix (Plus (Class f)) (String c s) =
  if f c then Some (S (leading f s)) else None.
Proof.
  unfold Plus. cbn [longestPrefix deriv nullable andb]. destruct (f c); cbn [cat].
  - now rewrite longestPrefix_Star_Class.
  - now rewrite longestPrefix_Never.
Qed.

Lemma replaceFrom_nonDigits (s : string) :
  replaceFrom nonDigits "" (leading (fun c => negb (isDigit c)) s) s = digitsOf s /\
  replaceFrom nonDigits "" 0 s = digitsOf s.
Proof.
  induction s as [|c s [IHa IHb]]; [split; reflexivity|].
  assert (B : replaceFrom nonDigits "" 0 (String c s) = digitsOf (String c s)).
  { cbn [replaceFrom digitsOf]. unfold nonDigits.
    rewrite longestPrefix_Plus_Class.
    destruct (isDigit c); cbn [negb append]; [now rewrite <- IHb | exact IHa]. }
  split; [|exact B].
  cbn [leading]. destruct (isDigit c) eqn:E; cbn [negb].
  - exact B.
  - cbn [replaceFrom digitsOf]. rewrite E. exact IHa.
Qed.

Lemma digitsOf_digits (s : string) : all isDigit (digitsOf s) = true.
Proof.
  induction s as [|c s IH]; [reflexivity|].
  cbn [digitsOf]. destruct (isDigit c) eqn:E; [|exact IH].
  cbn [all]. now rewrite E, IH.
Qed.

End Replacing.

Section Splitting.

Lemma splitFrom_nonempty (sep : string) (s : string) :
  forall skip field, splitFrom sep skip field s <> [].
Proof.
  induction s as [|c s IH]; intros skip field; cbn [splitFrom]; [discriminate|].
  destruct skip; [|apply IH].
  destruct (String.prefix sep (String c s)); [discriminate | apply IH].
Qed.

Lemma splitFrom_skip (sep x : string) :
  forall field rest,
    splitFrom sep (len x) field (x ++ rest) = splitFrom sep 0 field rest.
Proof.
  induction x as [|c x IH]; intros field rest; [reflexivity|].
  cbn [len String.length append splitFrom]. apply IH.
Qed.

Lemma Join_cons (sep x : string) (l : list string) :
  l <> [] -> Join (x :: l) sep = x ++ sep ++ Join l sep.
Proof. destruct l; [contradiction | reflexivity]. Qed.

Lemma Join_splitFrom (sep : string) :
  sep <> "" ->
  forall n s field,
    String.length s <= n -> Join (splitFrom sep 0 field s) sep = field ++ s.
Proof.
  intros Hsep. induction n as [|n IH]; intros s field Hn.
  - destruct s; [|cbn in Hn; lia]. cbn. now rewrite append_nil_r.
  - destruct s as [|c s]; [cbn; now rewrite append_nil_r|].
    cbn [splitFrom]. cbn [String.length] in Hn.
    destruct (String.prefix sep (String c s)) eqn:EP.
    + destruct (prefix_split _ _ EP) as [rest E].
      destruct sep as [|a sep']; [contradiction|].
      cbn [append] in E. injection E as -> ->.
      cbn [len String.length Nat.sub]. rewrite Nat.sub_0_r.
      change (String.length sep') with (len sep'). rewrite splitFrom_skip.
      rewrite Join_cons by apply splitFrom_nonempty.
      rewrite IH by (rewrite length_append in Hn; lia).
      reflexivity.
    + rewrite IH by lia. now rewrite append_assoc.
Qed.

End Splitting.

Section OperationsFacts.

Context {World : Type} {host : Host World} {lib : Library}.

Lemma runExec_run (command : string) (m : Machine World) :
  runExec command m =
  (Returns (fst (cmd_CombinedOutput (powershell command) (world m))),
   after (snd (cmd_CombinedOutput (powershell command) (world m)))
     [EvCombinedOutput (powershell command)] m).
Proof.
  unfold runExec, call, after.
  now destruct (cmd_CombinedOutput (powershell command) (world m)).
Qed.

(** X9: [UnmountVolume] flushes the cache first.  When the flush fails,
    its error is returned and nothing else is run, the access path stays;
    when it succeeds, the one further command is the removal of the access
    path. *)
Theorem UnmountVolume_flushes_first
    (volumeID path : string) (m : Machine World) :
  exists out err w,
    cmd_CombinedOutput (powershell (writeCacheCommand volumeID)) (world m)
      = ((out, err), w) /\
    match err with
    | Some e =>
        UnmountVolume volumeID path m =
        (Returns (Some (Errorf ("error writing volume cache. cmd: " ++
                                writeCacheCommand volumeID ++ ", output: " ++
                                out ++ ", error: " ++ Error e))),
         after w [EvCombinedOutput (powershell (writeCacheCommand volumeID))] m)
    | None =>
        exists r w',
          UnmountVolume volumeID path m =
          (Returns r,
           after w'
             [EvCombinedOutput
                (powershell (removeAccessPathCommand volumeID path));
              EvCombinedOutput (powershell (writeCacheCommand volumeID))] m)
    end.
Proof.
  unfold UnmountVolume, writeCache, bind. rewrite runExec_run.
  destruct (cmd_CombinedOutput _ (world m)) as [[out [e|]] w] eqn:E;
    exists out; eexists; exists w; (split; [reflexivity|]); cbn [fst snd].
  - reflexivity.
  - unfold ret. rewrite runExec_run. cbn [world after].
    destruct (cmd_CombinedOutput _ w) as [[out' [e'|]] w']; cbn [fst snd];
      do 2 eexists; reflexivity.
Qed.

(** X10: the disk number is parsed from the digits of the output alone.
    The replacement with the pattern drops every byte that is no digit,
    wherever it stands, and keeps the digits in their order; what is left
    goes to [ParseUint], and a number comes back only if that succeeds. *)
Theorem GetDiskNumberFromVolumeID_digits
    (volumeID out : string) (w : World) (m : Machine World) :
  cmd_CombinedOutput (powershell (diskNumberCommand volumeID)) (world m)
    = ((out, None), w) ->
  out <> "" ->
  ReplaceAllString nonDigits out "" = digitsOf out /\
  all isDigit (digitsOf out) = true /\
  GetDiskNumberFromVolumeID volumeID m =
  (Returns
     (match strconv_ParseUint (digitsOf out) with
      | (n, None) => (uint32 n, None)
      | (_, Some e) =>
          (0%Z, Some (Errorf ("error parsing disk number. cmd: " ++
                              diskNumberCommand volumeID ++ ", output: " ++
                              digitsOf out ++ ", error: " ++ Error e)))
      end),
   after w [EvCombinedOutput (powershell (diskNumberCommand volumeID))] m).
Proof.
  intros EC Hne.
  assert (ER : ReplaceAllString nonDigits out "" = digitsOf out)
    by apply replaceFrom_nonDigits.
  split; [exact ER|]. split; [apply digitsOf_digits|].
  unfold GetDiskNumberFromVolumeID, bind. rewrite runExec_run, EC.
  cbn [fst snd]. destruct out as [|c out]; [contradiction|].
  cbn [isError len String.length Nat.eqb orb]. rewrite ER.
  destruct (strconv_ParseUint _) as [n [e|]]; reflexivity.
Qed.

(** X11: when the command succeeds, [ListVolumesOnDisk] returns a list
    that is never empty: joined with the line separator its ids give back
    the trimmed output, so a blank output (no volume) gives one empty
    id. *)
Theorem ListVolumesOnDisk_ids
    (diskNumber partitionNumber : Z) (out : string) (w : World)
    (m : Machine World) :
  cmd_CombinedOutput
    (powershell (listVolumesCommand diskNumber partitionNumber)) (world m)
    = ((out, None), w) ->
  exists ids,
    ListVolumesOnDisk diskNumber partitionNumber m =
    (Returns (ids, None),
     after w [EvCombinedOutput
                (powershell (listVolumesCommand diskNumber partitionNumber))] m)
    /\ ids <> []
    /\ Join ids CRLF = strings_TrimSpace out
    /\ (strings_TrimSpace out = "" -> ids = [""]).
Proof.
  intros EC. exists (Split (strings_TrimSpace out) CRLF).
  unfold ListVolumesOnDisk, bind. rewrite runExec_run, EC. cbn [fst snd].
  split; [reflexivity|]. split; [apply splitFrom_nonempty|]. split.
  - unfold Split. now rewrite (@Join_splitFrom CRLF ltac:(discriminate)
                                 (String.length (strings_TrimSpace out))).
  - intros ->. reflexivity.
Qed.

Lemma getVolumeSize_run (volumeID : string) (m : Machine World) :
  getVolumeSize volumeID m =
  let '((out, err), w) :=
    cmd_CombinedOutput (powershell (sizeCommand volumeID)) (world m) in
  (Returns
     (if isError err || (len out =? 0)%nat then
        ((-1)%Z,
         Some (Errorf ("error getting size of the partition from mount. cmd "
                       ++ sizeCommand volumeID ++ ", output: " ++ out ++
                       ", error: " ++ fmt_v err)))
      else
        match strconv_ParseInt (strings_TrimSpace out) with
        | (_, Some e) =>
            ((-1)%Z,
             Some (Errorf ("error parsing size of volume " ++ volumeID ++
                           " received " ++ fmt_v_bytes out ++ " trimmed to "
                           ++ strings_TrimSpace out ++ " err " ++ Error e)))
        | (volumeSize, None) => (volumeSize, None)
        end),
   after w [EvCombinedOutput (powershell (sizeCommand volumeID))] m).
Proof.
  unfold getVolumeSize, bind. rewrite runExec_run.
  destruct (cmd_CombinedOutput _ _) as [[out err] w]. cbn [fst snd].
  destruct (isError err || (len out =? 0)%nat); [reflexivity|].
  destruct (strconv_ParseInt _) as [n [e|]]; reflexivity.
Qed.

(** After the size to reach is known: the size query, then the resize if
    the volume is smaller. *)
Lemma ResizeVolume_from (volumeID : string) (size finalSize : Z)
    (m m0 : Machine World) (before : list Event) :
  finalSizeFor volumeID size m = (Returns (inl finalSize), m0) ->
  trace m0 = (before ++ trace m)%list ->
  exists events,
    trace (snd (ResizeVolume volumeID size m)) = (events ++ trace m)%list /\
    (events = (EvCombinedOutput (powershell (sizeCommand volumeID)) :: before)%list
     \/
     exists currentSize out w1,
       events =
         (EvCombinedOutput (powershell (resizeCommand volumeID finalSize)) ::
          EvCombinedOutput (powershell (sizeCommand volumeID)) :: before)%list /\
       cmd_CombinedOutput (powershell (sizeCommand volumeID)) (world m0)
         = ((out, None), w1) /\
       strconv_ParseInt (strings_TrimSpace out) = (currentSize, None) /\
       (currentSize < finalSize)%Z).
Proof.
  intros EF Hb. unfold ResizeVolume, bind. rewrite EF, getVolumeSize_run.
  destruct (cmd_CombinedOutput _ (world m0)) as [[out err] w1] eqn:EC.
  assert (Hq : forall w,
             trace (after w [EvCombinedOutput (powershell (sizeCommand volumeID))] m0)
             = ((EvCombinedOutput (powershell (sizeCommand volumeID)) :: before)
                  ++ trace m)%list).
  { intros w. unfold after. cbn [trace]. now rewrite Hb. }
  destruct (isError err || (len out =? 0)%nat) eqn:E1.
  { eexists. split; [apply Hq | now left]. }
  destruct (strconv_ParseInt _) as [cur [e|]] eqn:EP.
  { eexists. split; [apply Hq | now left]. }
  destruct (cur >=? finalSize)%Z eqn:EG.
  { eexists. split; [apply Hq | now left]. }
  rewrite runExec_run. cbn [world after].
  apply orb_false_iff in E1. destruct E1 as [E1 _].
  destruct err; [discriminate|].
  exists (EvCombinedOutput (powershell (resizeCommand volumeID finalSize)) ::
          EvCombinedOutput (powershell (sizeCommand volumeID)) :: before)%list.
  split.
  - destruct (cmd_CombinedOutput _ w1) as [[out' [e'|]] w2]; cbn [fst snd];
      unfold ret, after; cbn [snd trace]; rewrite Hb; reflexivity.
  - right. exists cur, out, w1. repeat split; try assumption.
    rewrite Z.geb_leb in EG. now apply Z.leb_gt in EG.
Qed.

Lemma finalSizeFor_zero (volumeID : string) (m : Machine World) :
  exists final w,
    finalSizeFor volumeID 0 m =
    (Returns final,
     after w [EvCombinedOutput (powershell (sizeMaxCommand volumeID))] m).
Proof.
  unfold finalSizeFor, bind. cbn [Z.eqb]. rewrite runExec_run.
  destruct (cmd_CombinedOutput _ _) as [[out err] w]. cbn [fst snd].
  destruct (isError err || (len out =? 0)%nat); [unfold ret; eauto|].
  destruct (json_Unmarshal out) as [sizing [e|]]; unfold ret; eauto.
Qed.

Lemma finalSizeFor_asked (volumeID : string) (size : Z) (m : Machine World) :
  size <> 0%Z -> finalSizeFor volumeID size m = (Returns (inl size), m).
Proof.
  intros H. apply Z.eqb_neq in H. unfold finalSizeFor. now rewrite H.
Qed.

(** X12: [ResizeVolume] only grows a volume.  Either it runs queries only
    (for the largest size, for the current size), or it resizes, and then
    right after a size query that succeeded and parsed to a current size
    below the size to reach; that size is the one asked for unless zero was
    asked, in which case the query for the largest size came first. *)
Theorem ResizeVolume_only_grows
    (volumeID : string) (size : Z) (m : Machine World) :
  exists events,
    trace (snd (ResizeVolume volumeID size m)) = (events ++ trace m)%list /\
    ((forall e, In e events ->
                e = EvCombinedOutput (powershell (sizeCommand volumeID)) \/
                e = EvCombinedOutput (powershell (sizeMaxCommand volumeID)))
     \/
     exists finalSize currentSize out w0 w1 rest,
       events =
         EvCombinedOutput (powershell (resizeCommand volumeID finalSize)) ::
         EvCombinedOutput (powershell (sizeCommand volumeID)) :: rest /\
       cmd_CombinedOutput (powershell (sizeCommand volumeID)) w0
         = ((out, None), w1) /\
       strconv_ParseInt (strings_TrimSpace out) = (currentSize, None) /\
       (currentSize < finalSize)%Z /\
       (size <> 0%Z -> finalSize = size /\ rest = []) /\
       (size = 0%Z ->
        rest = [EvCombinedOutput (powershell (sizeMaxCommand volumeID))])).
Proof.
  destruct (Z.eq_dec size 0) as [->|Hs].
  - destruct (finalSizeFor_zero volumeID m) as ([finalSize|e] & w & EF).
    + destruct (@ResizeVolume_from volumeID 0 finalSize m _ _ EF eq_refl)
        as (events & E & [->|(cur & out & w1 & -> & EC & EP & Hlt)]);
        eexists; (split; [exact E|]).
      * left. cbn. intuition.
      * right. exists finalSize, cur, out. do 2 eexists. eexists.
        split; [reflexivity|]. split; [exact EC|].
        split; [exact EP|]. split; [exact Hlt|].
        split; [intros Hz; now elim Hz | reflexivity].
    + exists [EvCombinedOutput (powershell (sizeMaxCommand volumeID))].
      unfold ResizeVolume, bind. rewrite EF. cbn. split; [reflexivity|].
      left. intuition.
  - pose proof (finalSizeFor_asked volumeID m Hs) as EF.
    destruct (@ResizeVolume_from volumeID size size m m [] EF eq_refl)
      as (events & E & [->|(cur & out & w1 & -> & EC & EP & Hlt)]);
      eexists; (split; [exact E|]).
    + left. cbn. intuition.
    + right. exists size, cur, out. do 2 eexists. exists [].
      split; [reflexivity|]. split; [exact EC|].
      split; [exact EP|]. split; [exact Hlt|].
      split; [split; reflexivity | intros Hz; now elim Hs].
Qed.

End OperationsFacts.

(** ** The further properties on the example hosts *)

Section ExamplesMore.

Lemma dereferenceSymlink_stderr_fails_witness :
  exists e,
    dereferenceSymlink (host := noisyHost) "C:\noisy" Fake.boot =
    (Returns ("", Some e),
     after tt [EvRun (powershell (targetCommand "C:\noisy"))] Fake.boot).
Proof.
  apply (@dereferenceSymlink_stderr_fails unit noisyHost "C:\noisy" Fake.boot
           "Volume{a}" "WARNING: profile not loaded" None tt).
  - reflexivity.
  - discriminate.
Defined.

Lemma chain_detour :
  symlink_chain (host := Fake.host fsDetour) "C:\mnt\link" [] "D:\data\dir".
Proof. apply chain_last. now apply Fake_symlink. Qed.

Lemma climbs_detour :
  climbs (host := Fake.host fsDetour) 2 "D:\data\dir" "D:\".
Proof.
  cbn [climbs filepath_Dir Fake.host].
  repeat split; try reflexivity; now apply Fake_plain.
Qed.

(** A link to a directory two levels below the root of drive D: one
    dereference, four stats, then the lookup for D. *)
Lemma findClosestVolume_links_then_climb_witness :
  exists m1,
    findClosestVolume (host := Fake.host fsDetour) "C:\mnt\link" Fake.boot =
    getVolumeForDriveLetter (host := Fake.host fsDetour)
      (substring 0 1 "D:\") m1 /\
    count isRun (trace m1) = count isRun (trace Fake.boot) + 1 /\
    count isLstat (trace m1) = count isLstat (trace Fake.boot) + 1 + 3.
Proof.
  apply (@findClosestVolume_links_then_climb unit (Fake.host fsDetour)
           "C:\mnt\link" [] "D:\data\dir" "D:\" 2 Fake.boot).
  - exact chain_detour.
  - reflexivity.
  - exact climbs_detour.
  - discriminate.
  - cbn. lia.
Defined.

Lemma GetVolumeIDFromTargetPath_shape_witness :
  exists t,
    "\\?\Volume{99999999-0000-1111-2222-333333333333}" = volumePrefix ++ t /\
    HasPrefix t "Volume" = true.
Proof.
  apply (@GetVolumeIDFromTargetPath_shape unit (Fake.host fsTwoHops) 5
           "C:\mnt\disk2" Fake.boot
           "\\?\Volume{99999999-0000-1111-2222-333333333333}" None
           (snd (GetVolumeIDFromTargetPath (host := Fake.host fsTwoHops) 5
                   "C:\mnt\disk2" Fake.boot))).
  vm_compute. reflexivity.
Defined.

(** The target of the link carries the marker: [getTarget] goes on and
    asks for the target of that target. *)
Lemma getTarget_marked_target_recurses_witness :
  getTarget (host := Fake.host fsMarked) 4 "C:\mnt\m" Fake.boot =
  getTarget (host := Fake.host fsMarked) 3 "\\?\Volume{cccc}\"
    (after tt [EvCombinedOutput (powershell (targetCommand "C:\mnt\m"))]
       Fake.boot).
Proof.
  apply (@getTarget_marked_target_recurses unit (Fake.host fsMarked) 3
           "C:\mnt\m" ("\\?\Volume{cccc}\" ++ Fake.crlf) tt Fake.boot).
  - reflexivity.
  - discriminate.
  - reflexivity.
Defined.

Lemma getTarget_depth_witness :
  getTarget (host := Fake.host fsTwoHops) 7 "C:\mnt\disk2" Fake.boot =
  getTarget (host := Fake.host fsTwoHops) 2 "C:\mnt\disk2" Fake.boot /\
  exists r m',
    getTarget (host := Fake.host fsTwoHops) 2 "C:\mnt\disk2" Fake.boot =
      (Returns (Some r), m') /\
    count isCombinedOutput (trace m') =
      count isCombinedOutput (trace Fake.boot) + 2.
Proof.
  apply (@getTarget_depth unit (Fake.host fsTwoHops) 1 7 "C:\mnt\disk2"
           Fake.boot).
  - reflexivity.
  - lia.
Defined.

(** The words around the digits are dropped: the output says disk 1 of 2
    and the number parsed is 12. *)
Lemma GetDiskNumberFromVolumeID_digits_witness :
  ReplaceAllString nonDigits ("Disk 1 of 2" ++ CRLF) "" =
    digitsOf ("Disk 1 of 2" ++ CRLF) /\
  all isDigit (digitsOf ("Disk 1 of 2" ++ CRLF)) = true /\
  GetDiskNumberFromVolumeID (host := diskHost) (lib := Script.lib) "v1"
    Fake.boot =
  (Returns
     (match strconv_ParseUint (Library := Script.lib)
              (digitsOf ("Disk 1 of 2" ++ CRLF)) with
      | (n, None) => (uint32 n, None)
      | (_, Some e) =>
          (0%Z, Some (Errorf ("error parsing disk number. cmd: " ++
                              diskNumberCommand "v1" ++ ", output: " ++
                              digitsOf ("Disk 1 of 2" ++ CRLF) ++
                              ", error: " ++ Error e)))
      end),
   after tt [EvCombinedOutput (powershell (diskNumberCommand "v1"))] Fake.boot).
Proof.
  apply (@GetDiskNumberFromVolumeID_digits unit diskHost Script.lib "v1"
           ("Disk 1 of 2" ++ CRLF) tt Fake.boot).
  - reflexivity.
  - discriminate.
Defined.

Lemma ListVolumesOnDisk_ids_witness :
  exists ids,
    ListVolumesOnDisk (host := listHost) 1 0 Fake.boot =
    (Returns (ids, None),
     after tt [EvCombinedOutput (powershell (listVolumesCommand 1 0))] Fake.boot)
    /\ ids <> []
    /\ Join ids CRLF = Fake.TrimSpace ("a" ++ CRLF ++ "b" ++ CRLF)
    /\ (Fake.TrimSpace ("a" ++ CRLF ++ "b" ++ CRLF) = "" -> ids = [""]).
Proof.
  apply (@ListVolumesOnDisk_ids unit listHost 1 0
           ("a" ++ CRLF ++ "b" ++ CRLF) tt Fake.boot).
  reflexivity.
Defined.

Lemma findClosestVolume_chain_bound_witness :
  fst (findClosestVolume (host := Fake.host fsTwoHops) "C:\mnt\disk2" Fake.boot)
  = Returns (ensureVolumePrefix "Volume{99999999-0000-1111-2222-333333333333}",
             None).
Proof.
  apply (@findClosestVolume_chain_bound unit (Fake.host fsTwoHops)
           "C:\mnt\disk2" ["D:\mount2"]
           "Volume{99999999-0000-1111-2222-333333333333}" Fake.boot).
  - exact chain_two_hops.
  - reflexivity.
  - reflexivity.
  - cbn. lia.
Defined.

(** 256 levels below the root is one too many. *)
Lemma findClosestVolume_climb_bound_witness :
  fst (findClosestVolume (host := Fake.host fsBare) (Fake.deep 256) Fake.boot)
  = Returns ("", Some (Errorf ("Failed to find the closest volume for path="
                               ++ Fake.deep 256))).
Proof.
  apply (@findClosestVolume_climb_bound unit (Fake.host fsBare) 256
           (Fake.deep 256) "C:\" Fake.boot).
  - apply climbs_deep.
  - discriminate.
  - lia.
Defined.

Lemma findClosestVolume_link_value_witness :
  (Match VolumeRegexp "\\?\Volume{11111111-2222-3333-4444-555555555555}" = true /\
   HasPrefix "\\?\Volume{11111111-2222-3333-4444-555555555555}" volumePrefix
     = true /\
   exists argv tr,
     trace (snd (findClosestVolume (host := Fake.host fsMount)
                   "C:\mnt\disk1" Fake.boot)) = EvRun argv :: tr)
  \/
  exists letter tr,
    trace (snd (findClosestVolume (host := Fake.host fsMount)
                  "C:\mnt\disk1" Fake.boot)) =
    EvOutput (powershell (uniqueIdCommand letter)) :: EvDriveLetter letter :: tr.
Proof.
  apply (@findClosestVolume_link_value unit (Fake.host fsMount)
           "C:\mnt\disk1" Fake.boot).
  vm_compute. reflexivity.
Defined.

End ExamplesMore.
